(** * Chord-chart converter: line classification and column merge

    A shallow embedding of the text-transformation core of
    [convert_chords_interactive.py]: the token classifiers, the chord-only
    line test, the column merge, the standalone formatter and the pass over the
    input lines.

    Characters.  A Python [str] is a sequence of code points.  A character is
    modelled by [ascii], read as a code point in the range U+0000..U+00FF, and
    a string by [list ascii].  The character classes below are those of
    CPython restricted to that range: [is_space] is [Py_UNICODE_ISSPACE]
    (used alike by [str.split], [str.strip], [str.isspace] and the pattern
    class [\s]), [is_decimal] is the pattern class [\d], and [tolower] is the
    simple lower-case mapping that [re.IGNORECASE] compares with.

    Integers.  Python integers are unbounded; offsets and indices are [Z]. *)

From Stdlib Require Import String Ascii List ZArith Lia Bool Sorted DecimalString.
Import ListNotations.
Open Scope Z_scope.

Set Implicit Arguments.

(** ** Characters and strings *)

Definition str := list ascii.

(** String literals of the source, as character lists. *)
Definition s (x : string) : str := list_ascii_of_string x.

Definition code (c : ascii) : N := N_of_ascii c.

Definition newline : ascii := ascii_of_N 10.

(** [len x] is Python's [len(x)]. *)
Definition len (x : str) : Z := Z.of_nat (length x).

Definition in_range (lo hi n : N) : bool := (N.leb lo n && N.leb n hi)%bool.

(** Whitespace: TAB..CR, FS..US, space, NEL and NBSP. *)
Definition is_space (c : ascii) : bool :=
  let n := code c in
  (in_range 9 13 n || in_range 28 31 n || N.eqb n 32
   || N.eqb n 133 || N.eqb n 160)%bool.

(** Decimal digits: the only characters of category Nd below U+0100. *)
Definition is_decimal (c : ascii) : bool := in_range 48 57 (code c).

(** Simple lower-case mapping: A-Z, and the capital letters of U+00C0..U+00DE
    apart from the multiplication sign. *)
Definition tolower (c : ascii) : ascii :=
  let n := code c in
  if (in_range 65 90 n
      || (in_range 192 222 n && negb (N.eqb n 215)))%bool
  then ascii_of_N (n + 32) else c.

(** ** Regular expressions

    The four patterns of the source are written as terms of [regex] and
    matched with Brzozowski derivatives.  All four are anchored at both ends
    and used through [re.match], so acceptance is membership of the whole
    subject in the language of the pattern ([re_match_anchored] adds what
    [$] allows before a final newline). *)

Inductive atom : Type :=
| Lit (c : ascii)            (* a literal character *)
| Range (lo hi : ascii)      (* [lo-hi] *)
| Digit                      (* \d *)
| Space                      (* \s *)
| AnyChar.                   (* .  (no DOTALL: every character but newline) *)

Inductive regex : Type :=
| Void
| Eps
| Atom (a : atom)
| Seq (r1 r2 : regex)
| Alt (r1 r2 : regex)
| Star (r : regex).

Definition Opt (r : regex) : regex := Alt r Eps.
Definition Plus (r : regex) : regex := Seq r (Star r).

(** A literal word, one [Lit] per character. *)
Fixpoint Word (w : str) : regex :=
  match w with
  | [] => Eps
  | c :: w' => Seq (Atom (Lit c)) (Word w')
  end.

(** The code points of a range, from [lo] to [hi]. *)
Definition range_chars (lo hi : ascii) : list ascii :=
  map (fun k => ascii_of_N (code lo + N.of_nat k))
      (seq 0 (N.to_nat (code hi + 1 - code lo))).

(** Does atom [a] accept character [c]?  Under [ignorecase] a literal accepts
    the characters with the same lower-case form, and a range those whose
    lower-case form is the lower-case form of a member. *)
Definition accepts (ignorecase : bool) (a : atom) (c : ascii) : bool :=
  match a with
  | Lit x =>
      if ignorecase then Ascii.eqb (tolower c) (tolower x) else Ascii.eqb c x
  | Range lo hi =>
      if ignorecase
      then existsb (fun x => Ascii.eqb (tolower c) (tolower x)) (range_chars lo hi)
      else in_range (code lo) (code hi) (code c)
  | Digit => is_decimal c
  | Space => is_space c
  | AnyChar => negb (Ascii.eqb c newline)
  end.

Fixpoint nullable (r : regex) : bool :=
  match r with
  | Void => false
  | Eps => true
  | Atom _ => false
  | Seq r1 r2 => nullable r1 && nullable r2
  | Alt r1 r2 => nullable r1 || nullable r2
  | Star _ => true
  end.

Fixpoint deriv (ic : bool) (c : ascii) (r : regex) : regex :=
  match r with
  | Void => Void
  | Eps => Void
  | Atom a => if accepts ic a c then Eps else Void
  | Seq r1 r2 =>
      if nullable r1
      then Alt (Seq (deriv ic c r1) r2) (deriv ic c r2)
      else Seq (deriv ic c r1) r2
  | Alt r1 r2 => Alt (deriv ic c r1) (deriv ic c r2)
  | Star r1 => Seq (deriv ic c r1) (Star r1)
  end.

(** Whole-string match. *)
Fixpoint matches (ic : bool) (r : regex) (x : str) : bool :=
  match x with
  | [] => nullable r
  | c :: x' => matches ic (deriv ic c r) x'
  end.

(** [re.match("^R$", x)]: the whole of [x] is matched by [R], or [x] ends in
    a newline and what precedes it is matched by [R]. *)
Definition re_match_anchored (ic : bool) (r : regex) (x : str) : bool :=
  (matches ic r x
   || match rev x with
      | c :: y => Ascii.eqb c newline && matches ic r (rev y)
      | [] => false
      end)%bool.

(** The language of a pattern, as a predicate. *)
Fixpoint Lang (ic : bool) (r : regex) (x : str) : Prop :=
  match r with
  | Void => False
  | Eps => x = []
  | Atom a => exists c, x = [c] /\ accepts ic a c = true
  | Seq r1 r2 => exists x1 x2, x = x1 ++ x2 /\ Lang ic r1 x1 /\ Lang ic r2 x2
  | Alt r1 r2 => Lang ic r1 x \/ Lang ic r2 x
  | Star r1 => exists xs, x = concat xs /\ Forall (Lang ic r1) xs
  end.

(** ** Patterns of the source *)

Definition accidental : regex := Alt (Atom (Lit "#"%char)) (Atom (Lit "b"%char)).

Definition quality_keyword : regex :=
  Alt (Word (s "maj")) (Alt (Word (s "min")) (Alt (Word (s "m"))
  (Alt (Word (s "dim")) (Alt (Word (s "aug")) (Alt (Word (s "sus"))
       (Word (s "add"))))))).

(** The chord pattern, compiled with [re.IGNORECASE]: between "^" and "$", a
    root "[A-G]", an optional accidental "(?:#|b)", an optional quality
    "(?:maj|min|m|dim|aug|sus|add)" followed by any number of "\d", and an
    optional slash bass "/[A-G]" with its optional accidental. *)
Definition CHORD_TOKEN_RE : regex :=
  Seq (Atom (Range "A"%char "G"%char))
 (Seq (Opt accidental)
 (Seq (Opt (Seq quality_keyword (Star (Atom Digit))))
      (Opt (Seq (Atom (Lit "/"%char))
           (Seq (Atom (Range "A"%char "G"%char)) (Opt accidental)))))).

(** The pattern "^\(.*\)$". *)
Definition PAREN_ANNOTATION_RE : regex :=
  Seq (Atom (Lit "("%char)) (Seq (Star (Atom AnyChar)) (Atom (Lit ")"%char))).

(** The pattern "^\|+$". *)
Definition BAR_SEPARATOR_RE : regex := Plus (Atom (Lit "|"%char)).

(** The pattern "^\s*\[.*\]\s*$" that [process_lines] tests the next line with. *)
Definition SECTION_HEADER_RE : regex :=
  Seq (Star (Atom Space))
 (Seq (Atom (Lit "["%char))
 (Seq (Star (Atom AnyChar))
 (Seq (Atom (Lit "]"%char)) (Star (Atom Space))))).

(** ** String methods *)

Fixpoint lstrip (x : str) : str :=
  match x with
  | [] => []
  | c :: x' => if is_space c then lstrip x' else x
  end.

Definition rstrip (x : str) : str := rev (lstrip (rev x)).

(** [x.strip()] *)
Definition strip (x : str) : str := rstrip (lstrip x).

(** [x.isspace()]: at least one character, and all of them whitespace. *)
Definition isspace (x : str) : bool :=
  match x with
  | [] => false
  | _ => forallb is_space x
  end.

Definition is_empty {A : Type} (l : list A) : bool :=
  match l with [] => true | _ => false end.

(** ** Scanning a line

    [runs x] is the sequence of [group(0)] of [re.finditer(r"\S+|\s+", x)]:
    the maximal runs of whitespace and of non-whitespace characters, left to
    right.  [with_start] pairs each with its [start()]. *)

Fixpoint runs (x : str) : list str :=
  match x with
  | [] => []
  | c :: x' =>
      match runs x' with
      | (d :: r) :: rs =>
          if Bool.eqb (is_space c) (is_space d)
          then (c :: d :: r) :: rs
          else [c] :: (d :: r) :: rs
      | _ => [[c]]
      end
  end.

Fixpoint with_start (pos : Z) (rs : list str) : list (Z * str) :=
  match rs with
  | [] => []
  | r :: rs' => (pos, r) :: with_start (pos + Z.of_nat (length r)) rs'
  end.

Definition finditer_runs (x : str) : list (Z * str) := with_start 0 (runs x).

(** [re.finditer(r"\S+", x)], as pairs [(start(), group(0))]. *)
Definition finditer_nonspace (x : str) : list (Z * str) :=
  filter (fun m => negb (isspace (snd m))) (finditer_runs x).

(** [x.split()] *)
Definition split (x : str) : list str := map snd (finditer_nonspace x).

(** ** Token classification helpers *)

Definition is_chord_token (token : str) : bool :=
  if is_empty token then false
  else re_match_anchored true CHORD_TOKEN_RE (strip token).

Definition is_parenthetical_annotation (token : str) : bool :=
  re_match_anchored false PAREN_ANNOTATION_RE (strip token).

Definition is_bar_separator (token : str) : bool :=
  re_match_anchored false BAR_SEPARATOR_RE (strip token).

(** The [for tok in tokens] loop of [is_chord_only_line], with its early
    [return False]. *)
Fixpoint all_tokens_allowed (tokens : list str) : bool :=
  match tokens with
  | [] => true
  | tok :: rest =>
      if negb (is_chord_token tok
               || is_parenthetical_annotation tok
               || is_bar_separator tok)
      then false
      else all_tokens_allowed rest
  end.

Definition is_chord_only_line (line : str) : bool :=
  let tokens := filter (fun tok => negb (is_empty tok)) (split line) in
  if is_empty tokens then false else all_tokens_allowed tokens.

(** ** Merge algorithm *)

Definition bracketed (chord : str) : str := s "[" ++ chord ++ s "]".

(** Step 1 of [merge_chords_and_lyrics]: the [(start, token)] pairs of the
    chord tokens, appended in scan order. *)
Definition chord_positions (chord_line : str) : list (Z * str) :=
  fold_left
    (fun acc m => if is_chord_token (snd m) then acc ++ [m] else acc)
    (finditer_nonspace chord_line) [].

(** A slice bound of Python: negative bounds count from the end, and the
    result is clipped to [0, len]. *)
Definition slice_bound {A : Type} (l : list A) (i : Z) : Z :=
  let n := Z.of_nat (length l) in
  if i <? 0 then Z.max 0 (i + n) else Z.min i n.

(** [l[a:b] = v] *)
Definition slice_assign {A : Type} (l : list A) (a b : Z) (v : list A) : list A :=
  let a' := slice_bound l a in
  let b' := Z.max a' (slice_bound l b) in
  firstn (Z.to_nat a') l ++ v ++ skipn (Z.to_nat b') l.

(** One iteration of the insertion loop: the state is
    [(lyric_chars, offset)]. *)
Definition insert_chord (st : str * Z) (pc : Z * str) : str * Z :=
  let (lyric_chars, offset) := st in
  let (pos, chord) := pc in
  let insert_at := pos + offset in
  let insert_at := if insert_at <? 0 then 0 else insert_at in
  let insert_at :=
    if insert_at >? Z.of_nat (length lyric_chars)
    then Z.of_nat (length lyric_chars) else insert_at in
  (slice_assign lyric_chars insert_at insert_at (bracketed chord),
   offset + Z.of_nat (length (bracketed chord))).

Definition merge_chords_and_lyrics (chord_line lyric_line : str) : str :=
  fst (fold_left insert_chord (chord_positions chord_line) (lyric_line, 0)).

(** ** Standalone formatter *)

(** The body of the [for token in re.finditer(...)] loop: what is appended
    to [parts] for one run. *)
Definition format_piece (tok : str) : str :=
  if isspace tok then tok
  else if is_chord_token tok then bracketed tok
  else if (is_parenthetical_annotation tok || is_bar_separator tok)%bool then tok
  else tok.

Definition format_chord_only_line (line : str) : str :=
  concat (fold_left (fun parts tok => parts ++ [format_piece tok]) (runs line) []).

(** ** The pass over the lines *)

Inductive result (A : Type) : Type :=
| Ok (a : A)
| IndexError
| OutOfFuel.
Arguments Ok {A} a.
Arguments IndexError {A}.
Arguments OutOfFuel {A}.

(** [l[i]], raising [IndexError] (here [None]) out of range. *)
Definition getitem {A : Type} (l : list A) (i : Z) : option A :=
  let n := Z.of_nat (length l) in
  let j := if i <? 0 then i + n else i in
  if ((0 <=? j) && (j <? n))%bool then nth_error l (Z.to_nat j) else None.

Record state : Type := mkState { idx : Z; out : list str }.

Definition emit (st : state) (line : str) (advance : Z) : state :=
  mkState (idx st + advance) (out st ++ [line]).

(** One iteration of the [while i < n] loop. *)
Definition loop_body (lines : list str) (st : state) : result state :=
  let n := Z.of_nat (length lines) in
  match getitem lines (idx st) with
  | None => IndexError
  | Some cur_line =>
      if is_chord_only_line cur_line then
        let standalone := Ok (emit st (format_chord_only_line cur_line) 1) in
        if idx st + 1 <? n then
          match getitem lines (idx st + 1) with
          | None => IndexError
          | Some next_line =>
              if (negb (is_empty (strip next_line))
                  && negb (re_match_anchored false SECTION_HEADER_RE next_line))%bool
              then Ok (emit st (merge_chords_and_lyrics cur_line next_line) 2)
              else standalone
          end
        else standalone
      else Ok (emit st cur_line 1)
  end.

Fixpoint while_loop (fuel : nat) (lines : list str) (st : state) : result state :=
  if idx st <? Z.of_nat (length lines) then
    match fuel with
    | O => OutOfFuel
    | S fuel' =>
        match loop_body lines st with
        | Ok st' => while_loop fuel' lines st'
        | IndexError => IndexError
        | OutOfFuel => OutOfFuel
        end
    end
  else Ok st.

(** [process_lines]: every iteration advances the index, so [len(lines)]
    iterations are enough fuel. *)
Definition process_lines (lines : list str) : result (list str) :=
  match while_loop (length lines) lines (mkState 0 []) with
  | Ok st => Ok (out st)
  | IndexError => IndexError
  | OutOfFuel => OutOfFuel
  end.

(** ** The specification's vocabulary

    The definitions below follow the words of the design document, not the
    code; the theorems compare the two. *)

(** A root: one letter A-G, in either case. *)
Definition spec_root (c : ascii) : Prop := In (tolower c) (s "abcdefg").

(** An optional accidental, [#] or [b]. *)
Definition spec_accidental (a : str) : Prop :=
  a = [] \/ a = s "#" \/ map tolower a = s "b".

Definition spec_keywords : list str :=
  map s ["maj"; "min"; "m"; "dim"; "aug"; "sus"; "add"]%string.

(** An optional quality: a keyword, then digits. *)
Definition spec_quality (q : str) : Prop :=
  q = [] \/
  exists k ds, q = k ++ ds /\ In (map tolower k) spec_keywords
               /\ Forall (fun c => is_decimal c = true) ds.

(** An optional slash bass: [/], a root, an optional accidental. *)
Definition spec_bass (b : str) : Prop :=
  b = [] \/
  exists c a, b = "/"%char :: c :: a /\ spec_root c /\ spec_accidental a.

Definition spec_chord_grammar (tok : str) : Prop :=
  exists c a q b,
    tok = c :: a ++ q ++ b
    /\ spec_root c /\ spec_accidental a /\ spec_quality q /\ spec_bass b.

(** Two tokens that differ only in letter case. *)
Definition same_up_to_case (t1 t2 : str) : Prop :=
  map tolower t1 = map tolower t2.

(** [t] is a maximal non-whitespace run of [line] starting at offset [p]. *)
Definition maximal_token (line : str) (p : Z) (t : str) : Prop :=
  t <> [] /\ Forall (fun c => is_space c = false) t /\
  exists pre post,
    line = pre ++ t ++ post /\ p = len pre
    /\ (forall pre' c, pre = pre' ++ [c] -> is_space c = true)
    /\ (forall c post', post = c :: post' -> is_space c = true).

Definition spec_clamp (lo hi x : Z) : Z := Z.max lo (Z.min hi x).

Definition spec_insert_at (l : str) (i : Z) (v : str) : str :=
  firstn (Z.to_nat i) l ++ v ++ skipn (Z.to_nat i) l.

(** Steps 3 and 4 of the merge, as the design document words them. *)
Fixpoint spec_merge_loop (toks : list (Z * str)) (lyric : str) (running : Z) : str :=
  match toks with
  | [] => lyric
  | (p, t) :: rest =>
      let i := spec_clamp 0 (len lyric) (p + running) in
      spec_merge_loop rest
        (spec_insert_at lyric i (s "[" ++ t ++ s "]"))
        (running + (len t + 2))
  end.

(** What the pattern of the pass accepts on a line without a newline: the
    trimmed line begins with "[" and ends with a separate "]", whatever lies
    between the two. *)
Definition bracket_delimited (line : str) : Prop :=
  exists body, strip line = s "[" ++ body ++ s "]".

(** [Woven blocks l m]: [m] is [l] with the [blocks] inserted whole, in
    order, between or around characters of [l]; nothing of [l] is removed,
    replaced or reordered. *)
Inductive Woven : list str -> str -> str -> Prop :=
| Woven_done : forall l, Woven [] l l
| Woven_keep : forall bs c l m, Woven bs l m -> Woven bs (c :: l) (c :: m)
| Woven_block : forall b bs l m, Woven bs l m -> Woven (b :: bs) l (b ++ m).

(** The closed form of the merge: the part [rest] of the lyric that begins
    at lyric index [from], with each token cut in at its own column, or at
    the end of the lyric when the column lies beyond it. *)
Fixpoint weave (from : Z) (toks : list (Z * str)) (rest : str) : str :=
  match toks with
  | [] => rest
  | (p, t) :: tl =>
      let k := Z.to_nat (Z.min (p - from) (len rest)) in
      firstn k rest ++ bracketed t
        ++ weave (from + Z.of_nat k) tl (skipn k rest)
  end.

(** Characters that no atom of a pattern accepts. *)
Fixpoint never_accepts (ic : bool) (c : ascii) (r : regex) : bool :=
  match r with
  | Void | Eps => true
  | Atom a => negb (accepts ic a c)
  | Seq r1 r2 | Alt r1 r2 => never_accepts ic c r1 && never_accepts ic c r2
  | Star r1 => never_accepts ic c r1
  end.

(** All characters of [r] are whitespace ([b = true]) or all are not. *)
Definition homog (b : bool) (r : str) : Prop :=
  Forall (fun c => is_space c = b) r.

(** A well-formed scan: non-empty runs of one kind each, of alternating
    kinds. *)
Inductive RunList : list str -> Prop :=
| RunList_nil : RunList []
| RunList_one : forall b r, r <> [] -> homog b r -> RunList [r]
| RunList_cons : forall b r r' rs,
    r <> [] -> homog b r -> r' <> [] -> homog (negb b) r' ->
    RunList (r' :: rs) -> RunList (r :: r' :: rs).

Definition by_start (a b : Z * str) : Prop := fst a < fst b.

(** The bracketed forms of a list of positioned tokens, in order. *)
Definition brackets (toks : list (Z * str)) : list str :=
  map (fun m => bracketed (snd m)) toks.

(** Number of occurrences of a character. *)
Definition count (c : ascii) (x : str) : nat := count_occ ascii_dec x c.

(** The test [process_lines] makes on the line after a chord-only line. *)
Definition mergeable (next_line : str) : bool :=
  (negb (is_empty (strip next_line))
   && negb (re_match_anchored false SECTION_HEADER_RE next_line))%bool.

(** The output of the pass, by recursion on the lines still to read. *)
Fixpoint pass (lines : list str) : list str :=
  match lines with
  | [] => []
  | cur :: rest =>
      if is_chord_only_line cur then
        match rest with
        | next :: rest' =>
            if mergeable next
            then merge_chords_and_lyrics cur next :: pass rest'
            else format_chord_only_line cur :: pass rest
        | [] => format_chord_only_line cur :: pass rest
        end
      else cur :: pass rest
  end.

(** What the formatter emits for one run, as the design document words it. *)
Definition spec_format_piece (tok : str) : str :=
  if is_chord_token tok then s "[" ++ tok ++ s "]" else tok.

Definition all_space (x : str) : Prop := Forall (fun c => is_space c = true) x.

(** A section header as the design document words it: optional leading
    and trailing whitespace around a single bracketed token, that is, one
    run of non-whitespace characters that begins with "[" and ends with
    "]", spanning the whole line. *)
Definition spec_single_bracketed_token (line : str) : Prop :=
  exists lead body trail,
    line = lead ++ (s "[" ++ body ++ s "]") ++ trail
    /\ all_space lead /\ all_space trail
    /\ Forall (fun c => is_space c = false) body.

(** Case analysis on the eight bits of a character. *)
Ltac ascii_cases c := destruct c as [[|] [|] [|] [|] [|] [|] [|] [|]].

(** ** Reading and writing

    The pure parts of [main] and [write_output_file]: the input text is cut
    into lines with [str.splitlines], and the output lines are joined with a
    newline and ended with one. *)

Definition carriage_return : ascii := ascii_of_N 13.

(** The line boundaries of [str.splitlines] below U+0100: LF, VT, FF, CR,
    FS, GS, RS and NEL. *)
Definition is_linebreak (c : ascii) : bool :=
  let n := code c in
  (in_range 10 13 n || in_range 28 30 n || N.eqb n 133)%bool.

(** [x.splitlines()]: a CR immediately followed by LF is one boundary; a
    boundary at the very end opens no further line. *)
Fixpoint splitlines (x : str) : list str :=
  match x with
  | [] => []
  | c :: x' =>
      if is_linebreak c then
        [] :: match x' with
              | d :: x'' =>
                  if (Ascii.eqb c carriage_return && Ascii.eqb d newline)%bool
                  then splitlines x''
                  else splitlines x'
              | [] => []
              end
      else
        match splitlines x' with
        | [] => [[c]]
        | l :: ls => (c :: l) :: ls
        end
  end.

(** A line that holds no line boundary. *)
Definition no_linebreak (line : str) : Prop :=
  Forall (fun c => is_linebreak c = false) line.

(** [sep.join(lines)] *)
Fixpoint join (sep : str) (lines : list str) : str :=
  match lines with
  | [] => []
  | l :: rest =>
      match rest with
      | [] => l
      | _ :: _ => l ++ sep ++ join sep rest
      end
  end.

(** The [content] that [write_output_file] writes. *)
Definition file_content (lines : list str) : str :=
  join [newline] lines ++ [newline].

(** Lines 470-476 of [main] with the content of [write_output_file]: from
    the raw input text to the text of the output file. *)
Definition main_content (raw : str) : result str :=
  match process_lines (splitlines raw) with
  | Ok converted => Ok (file_content converted)
  | IndexError => IndexError
  | OutOfFuel => OutOfFuel
  end.

(** [str(n)] for an integer. *)
Definition str_of_int (n : Z) : str := s (NilZero.string_of_int (Z.to_int n)).

(** The candidate name that [unique_output_filename] builds for a counter. *)
Definition candidate_name (base_name timestamp ext : str) (counter : Z) : str :=
  base_name ++ s "_" ++ timestamp ++ s "_" ++ str_of_int counter ++ ext.

(** The [while True] loop of [unique_output_filename].  [path_exists] stands
    for [os.path.exists] and [timestamp] for the formatted
    [datetime.now()], read once before the loop. *)
Fixpoint first_free_name (fuel : nat) (path_exists : str -> bool)
         (base_name timestamp ext : str) (counter : Z) : result str :=
  match fuel with
  | O => OutOfFuel
  | S fuel' =>
      let candidate := candidate_name base_name timestamp ext counter in
      if negb (path_exists candidate) then Ok candidate
      else first_free_name fuel' path_exists base_name timestamp ext (counter + 1)
  end.

Definition unique_output_filename (fuel : nat) (path_exists : str -> bool)
           (timestamp base_name ext : str) : result str :=
  let candidate := base_name ++ ext in
  if negb (path_exists candidate) then Ok candidate
  else first_free_name fuel path_exists base_name timestamp ext 1.

(** A token allowed on a chord-only line. *)
Definition allowed_token (tok : str) : bool :=
  (is_chord_token tok || is_parenthetical_annotation tok
   || is_bar_separator tok)%bool.

(** The characters of a line other than the two brackets. *)
Definition without_brackets (x : str) : str :=
  filter (fun c => negb (Ascii.eqb c "["%char || Ascii.eqb c "]"%char)) x.

(** The total length of the bracketed forms of a list of tokens. *)
Definition inserted_length (toks : list (Z * str)) : Z :=
  fold_right (fun m acc => len (snd m) + 2 + acc) 0 toks.

(** ** Correctness of the matcher *)

Unset Implicit Arguments.

Section Matcher.
Variable ic : bool.

Lemma nullable_Lang : forall r, nullable r = true <-> Lang ic r [].
Proof.
  induction r as [| | a | r1 IH1 r2 IH2 | r1 IH1 r2 IH2 | r1 IH1]; simpl.
  - split; [discriminate | tauto].
  - tauto.
  - split; [discriminate | intros (c & H & _); discriminate].
  - rewrite andb_true_iff, IH1, IH2. split.
    + intros [H1 H2]. exists [], []. auto.
    + intros (x1 & x2 & E & H1 & H2). symmetry in E.
      apply app_eq_nil in E. destruct E; subst; auto.
  - rewrite orb_true_iff, IH1, IH2. tauto.
  - split; auto. intros _. exists []. split; [reflexivity | constructor].
Qed.

Lemma Lang_Star_cons : forall r c x,
    Lang ic (Star r) (c :: x) <->
    exists x1 x2, x = x1 ++ x2 /\ Lang ic r (c :: x1) /\ Lang ic (Star r) x2.
Proof.
  intros r c x. split.
  - intros (xs & E & F). revert E. induction F as [| y ys Hy F IH]; simpl.
    + discriminate.
    + destruct y as [| d y']; simpl; intros E.
      * auto.
      * injection E as -> ->. exists y', (concat ys). repeat split; auto.
        exists ys. auto.
  - intros (x1 & x2 & -> & H1 & xs & -> & F).
    exists ((c :: x1) :: xs). split; [reflexivity | constructor; auto].
Qed.

Lemma deriv_Lang : forall r c x, Lang ic (deriv ic c r) x <-> Lang ic r (c :: x).
Proof.
  induction r as [| | a | r1 IH1 r2 IH2 | r1 IH1 r2 IH2 | r1 IH1]; intros c x.
  - simpl. tauto.
  - simpl. split; [tauto | discriminate].
  - simpl. destruct (accepts ic a c) eqn:A; simpl.
    + split.
      * intros ->. exists c. auto.
      * intros (d & E & _). injection E as _ E. exact E.
    + split; [tauto |].
      intros (d & E & A'). injection E as <- _. congruence.
  - assert (forall y, (exists x1 x2, y = x1 ++ x2 /\ Lang ic (deriv ic c r1) x1
                                     /\ Lang ic r2 x2)
                      \/ (nullable r1 = true /\ Lang ic r2 (c :: y))
                      <-> Lang ic (Seq r1 r2) (c :: y)) as Key.
    { intros y. simpl. split.
      - intros [(x1 & x2 & -> & H1 & H2) | [N H2]].
        + exists (c :: x1), x2. rewrite <- IH1. auto.
        + exists [], (c :: y). rewrite <- nullable_Lang. auto.
      - intros (x1 & x2 & E & H1 & H2). destruct x1 as [| d x1'].
        + simpl in E. subst x2. right. rewrite nullable_Lang. auto.
        + simpl in E. injection E as <- ->. left.
          exists x1', x2. rewrite IH1. auto. }
    rewrite <- Key. simpl deriv. destruct (nullable r1) eqn:N; simpl.
    + rewrite IH2. intuition.
    + intuition discriminate.
  - simpl. rewrite IH1, IH2. tauto.
  - rewrite Lang_Star_cons. simpl. split.
    + intros (x1 & x2 & -> & H1 & H2). exists x1, x2. rewrite <- IH1. auto.
    + intros (x1 & x2 & -> & H1 & H2). exists x1, x2. rewrite IH1. auto.
Qed.

Lemma matches_Lang : forall x r, matches ic r x = true <-> Lang ic r x.
Proof.
  induction x as [| c x IH]; intros r; simpl.
  - apply nullable_Lang.
  - rewrite IH. apply deriv_Lang.
Qed.

Lemma never_accepts_Lang : forall c r x,
    never_accepts ic c r = true -> Lang ic r x -> ~ In c x.
Proof.
  intros c. induction r as [| | a | r1 IH1 r2 IH2 | r1 IH1 r2 IH2 | r1 IH1];
    simpl; intros x N L.
  - contradiction.
  - subst. auto.
  - destruct L as (d & -> & A). intros [-> | []].
    rewrite A in N. discriminate.
  - apply andb_true_iff in N. destruct N as [N1 N2].
    destruct L as (x1 & x2 & -> & L1 & L2). intros I.
    apply in_app_or in I. destruct I; [eapply IH1 | eapply IH2]; eauto.
  - apply andb_true_iff in N. destruct N as [N1 N2].
    destruct L; [eapply IH1 | eapply IH2]; eauto.
  - destruct L as (xs & -> & F). induction F as [| y ys Hy F IHF]; simpl.
    + auto.
    + intros I. apply in_app_or in I. destruct I; [eapply IH1 | ]; eauto.
Qed.
End Matcher.

(** ** Characters *)

Lemma is_space_tolower : forall c, is_space (tolower c) = is_space c.
Proof. intros c. ascii_cases c; reflexivity. Qed.

Lemma is_decimal_tolower : forall c, is_decimal (tolower c) = is_decimal c.
Proof. intros c. ascii_cases c; reflexivity. Qed.

Lemma tolower_idempotent : forall c, tolower (tolower c) = tolower c.
Proof. intros c. ascii_cases c; reflexivity. Qed.

Lemma tolower_newline : forall c,
    Ascii.eqb (tolower c) newline = Ascii.eqb c newline.
Proof. intros c. ascii_cases c; reflexivity. Qed.

(** The sharp sign and the slash have no other case form. *)
Lemma tolower_hash : forall c, tolower c = "#"%char -> c = "#"%char.
Proof. intros c. ascii_cases c; intros H; solve [reflexivity | discriminate H]. Qed.

Lemma tolower_slash : forall c, tolower c = "/"%char -> c = "/"%char.
Proof. intros c. ascii_cases c; intros H; solve [reflexivity | discriminate H]. Qed.

Lemma is_space_newline : is_space newline = true.
Proof. reflexivity. Qed.

(** ** [strip] *)

Lemma lstrip_spaces : forall ws y, all_space ws -> lstrip (ws ++ y) = lstrip y.
Proof.
  intros ws y F. induction F as [| c ws Hc F IH]; simpl; auto.
  rewrite Hc. exact IH.
Qed.

Lemma lstrip_decomp : forall x,
    exists ws, x = ws ++ lstrip x /\ all_space ws.
Proof.
  induction x as [| c x (ws & E & F)]; simpl.
  - exists []. split; [reflexivity | constructor].
  - destruct (is_space c) eqn:Hc.
    + exists (c :: ws). split; [simpl; congruence | constructor; auto].
    + exists []. split; [reflexivity | constructor].
Qed.

Lemma lstrip_head : forall x c y, lstrip x = c :: y -> is_space c = false.
Proof.
  induction x as [| d x IH]; simpl; intros c y E.
  - discriminate.
  - destruct (is_space d) eqn:Hd.
    + eauto.
    + injection E as <- _. exact Hd.
Qed.

Lemma lstrip_fixed : forall c y, is_space c = false -> lstrip (c :: y) = c :: y.
Proof. intros c y H. simpl. rewrite H. reflexivity. Qed.

Lemma rstrip_decomp : forall x, exists ws, x = rstrip x ++ ws /\ all_space ws.
Proof.
  intros x. unfold rstrip. destruct (lstrip_decomp (rev x)) as (ws & E & F).
  exists (rev ws). split.
  - rewrite <- rev_app_distr, <- E, rev_involutive. reflexivity.
  - apply Forall_rev. exact F.
Qed.

Lemma rstrip_last : forall x y c, rstrip x = y ++ [c] -> is_space c = false.
Proof.
  unfold rstrip. intros x y c E.
  apply (f_equal (@rev ascii)) in E.
  rewrite rev_involutive, rev_app_distr in E. simpl in E.
  eapply lstrip_head; eauto.
Qed.

Lemma rstrip_spaces : forall y ws, all_space ws -> rstrip (y ++ ws) = rstrip y.
Proof.
  intros y ws F. unfold rstrip. rewrite rev_app_distr, lstrip_spaces; auto.
  apply Forall_rev. exact F.
Qed.

Lemma rstrip_fixed : forall y c, is_space c = false -> rstrip (y ++ [c]) = y ++ [c].
Proof.
  intros y c H. unfold rstrip. rewrite rev_app_distr. simpl.
  rewrite H. simpl. rewrite rev_involutive. reflexivity.
Qed.

Lemma strip_decomp : forall x,
    exists lead trail, x = lead ++ strip x ++ trail /\ all_space lead /\ all_space trail.
Proof.
  intros x. unfold strip.
  destruct (lstrip_decomp x) as (lead & E1 & F1).
  destruct (rstrip_decomp (lstrip x)) as (trail & E2 & F2).
  exists lead, trail. rewrite <- E2. auto.
Qed.

Lemma strip_head : forall x c y, strip x = c :: y -> is_space c = false.
Proof.
  unfold strip. intros x c y E.
  destruct (rstrip_decomp (lstrip x)) as (ws & E2 & F2).
  rewrite E in E2. simpl in E2. eapply lstrip_head; eauto.
Qed.

Lemma strip_last : forall x y c, strip x = y ++ [c] -> is_space c = false.
Proof. unfold strip. intros x y c E. eapply rstrip_last; eauto. Qed.

(** A string between whitespace that begins and ends with a non-whitespace
    character is what [strip] returns. *)
Lemma strip_between : forall lead trail c mid front d,
    all_space lead -> all_space trail ->
    is_space c = false -> is_space d = false ->
    c :: mid = front ++ [d] ->
    strip (lead ++ (c :: mid) ++ trail) = c :: mid.
Proof.
  intros lead trail c mid front d F1 F2 Hc Hd E. unfold strip.
  rewrite lstrip_spaces by assumption.
  change ((c :: mid) ++ trail) with (c :: (mid ++ trail)).
  rewrite lstrip_fixed by assumption.
  change (c :: (mid ++ trail)) with ((c :: mid) ++ trail).
  rewrite rstrip_spaces by assumption.
  rewrite E. apply rstrip_fixed. exact Hd.
Qed.

Lemma strip_all_space : forall x, all_space x -> strip x = [].
Proof.
  intros x F. unfold strip.
  replace (lstrip x) with (lstrip (x ++ [])) by (rewrite app_nil_r; reflexivity).
  rewrite lstrip_spaces by assumption. reflexivity.
Qed.

Lemma lstrip_map : forall f x,
    (forall c, is_space (f c) = is_space c) ->
    lstrip (map f x) = map f (lstrip x).
Proof.
  intros f x Hf. induction x as [| c x IH]; simpl; auto.
  rewrite Hf. destruct (is_space c); auto.
Qed.

Lemma strip_map : forall f x,
    (forall c, is_space (f c) = is_space c) ->
    strip (map f x) = map f (strip x).
Proof.
  intros f x Hf. unfold strip, rstrip.
  rewrite lstrip_map, <- map_rev, lstrip_map, map_rev by assumption.
  reflexivity.
Qed.

(** ** Anchored matching *)

Lemma re_match_anchored_Lang : forall ic r x,
    re_match_anchored ic r x = true <->
    Lang ic r x \/ exists y, x = y ++ [newline] /\ Lang ic r y.
Proof.
  intros ic r x. unfold re_match_anchored.
  rewrite orb_true_iff, matches_Lang.
  apply or_iff_compat_l.
  destruct (rev x) as [| c y] eqn:E.
  - split; [discriminate |].
    intros (y & -> & _). rewrite rev_app_distr in E. discriminate.
  - apply (f_equal (@rev ascii)) in E. rewrite rev_involutive in E. simpl in E.
    rewrite andb_true_iff, Ascii.eqb_eq, matches_Lang. split.
    + intros [-> L]. exists (rev y). auto.
    + intros (z & -> & L). apply app_inj_tail in E. destruct E as [-> ->]. auto.
Qed.

(** On a stripped string [$] can only match at the end. *)
Lemma re_match_anchored_strip : forall ic r x,
    re_match_anchored ic r (strip x) = true <-> Lang ic r (strip x).
Proof.
  intros ic r x. rewrite re_match_anchored_Lang. split; auto.
  intros [L | (y & E & _)]; auto.
  apply strip_last in E. rewrite is_space_newline in E. discriminate.
Qed.

Lemma is_chord_token_Lang : forall token,
    is_chord_token token = true <-> Lang true CHORD_TOKEN_RE (strip token).
Proof.
  intros token. unfold is_chord_token. destruct token as [| c t].
  - cbv [is_empty]. split; [discriminate |].
    change (strip []) with (@nil ascii).
    intros L. apply nullable_Lang in L. discriminate L.
  - cbv [is_empty]. apply re_match_anchored_strip.
Qed.

(** ** The chord pattern and the grammar of the design document *)

Lemma Lang_Word : forall w k,
    Lang true (Word w) k <-> map tolower k = map tolower w.
Proof.
  induction w as [| x w IH]; intros k; cbn [Word Lang accepts map].
  - split; [intros ->; reflexivity | intros E; destruct k; [reflexivity | discriminate]].
  - split.
    + intros (x1 & x2 & -> & (c & -> & A) & L). simpl.
      apply Ascii.eqb_eq in A. apply IH in L. congruence.
    + destruct k as [| c k]; [discriminate |]. simpl. intros E.
      injection E as E1 E2. exists [c], k. repeat split.
      * exists c. split; [reflexivity | apply Ascii.eqb_eq; exact E1].
      * apply IH. exact E2.
Qed.

Lemma Lang_Star_Atom : forall ic a x,
    Lang ic (Star (Atom a)) x <-> Forall (fun c => accepts ic a c = true) x.
Proof.
  intros ic a x. cbn [Lang]. split.
  - intros (xs & -> & F). induction F as [| y ys (c & -> & A) F IH]; simpl.
    + constructor.
    + constructor; auto.
  - intros F. exists (map (fun c => [c]) x). split.
    + induction x as [| c x IH]; simpl; [reflexivity |].
      inversion F; subst. f_equal. auto.
    + induction F as [| c x A F IH]; simpl; constructor; auto.
      exists c. auto.
Qed.

Lemma accepts_root : forall c,
    accepts true (Range "A" "G") c = true <-> spec_root c.
Proof.
  intros c. unfold spec_root.
  change (accepts true (Range "A" "G") c)
    with (existsb (fun x => Ascii.eqb (tolower c) (tolower x)) (s "ABCDEFG")).
  change (s "abcdefg") with (map tolower (s "ABCDEFG")).
  rewrite existsb_exists, in_map_iff. split.
  - intros (x & I & E). apply Ascii.eqb_eq in E. eauto.
  - intros (x & E & I). exists x. rewrite Ascii.eqb_eq. auto.
Qed.

Lemma Lang_opt_accidental : forall a,
    Lang true (Opt accidental) a <-> spec_accidental a.
Proof.
  intros a. unfold spec_accidental, Opt, accidental. cbn [Lang accepts]. split.
  - intros [[(c & -> & A) | (c & -> & A)] | ->]; auto.
    + apply Ascii.eqb_eq in A. apply tolower_hash in A. subst. auto.
    + apply Ascii.eqb_eq in A. right. right. simpl. f_equal. exact A.
  - intros [-> | [-> | E]]; auto.
    + left. left. exists "#"%char. auto.
    + left. right. destruct a as [| c [| d a]]; try discriminate E.
      injection E as E. exists c. split; [reflexivity |].
      apply Ascii.eqb_eq. exact E.
Qed.

Lemma Lang_quality_keyword : forall k,
    Lang true quality_keyword k <-> In (map tolower k) spec_keywords.
Proof.
  intros k. unfold quality_keyword.
  cbn [Lang]. rewrite !Lang_Word.
  unfold spec_keywords. cbn [map In].
  change (map tolower (s "maj")) with (s "maj").
  change (map tolower (s "min")) with (s "min").
  change (map tolower (s "m")) with (s "m").
  change (map tolower (s "dim")) with (s "dim").
  change (map tolower (s "aug")) with (s "aug").
  change (map tolower (s "sus")) with (s "sus").
  change (map tolower (s "add")) with (s "add").
  intuition congruence.
Qed.

Lemma Lang_opt_quality : forall q,
    Lang true (Opt (Seq quality_keyword (Star (Atom Digit)))) q <-> spec_quality q.
Proof.
  intros q. unfold spec_quality, Opt. cbn [Lang]. split.
  - intros [(k & ds & -> & K & D) | ->]; auto.
    right. exists k, ds. rewrite <- Lang_quality_keyword.
    repeat split; auto. apply (Lang_Star_Atom true Digit) in D. exact D.
  - intros [-> | (k & ds & -> & K & D)]; auto.
    left. exists k, ds. rewrite Lang_quality_keyword.
    repeat split; auto. apply (Lang_Star_Atom true Digit). exact D.
Qed.

Lemma Lang_opt_bass : forall b,
    Lang true (Opt (Seq (Atom (Lit "/"))
                   (Seq (Atom (Range "A" "G")) (Opt accidental)))) b
    <-> spec_bass b.
Proof.
  intros b. unfold spec_bass. cbn [Lang Opt]. fold (Opt accidental). split.
  - intros [(x1 & x2 & -> & (c & -> & A) & (x3 & a & -> & (r & -> & R) & L)) | ->]; auto.
    right. apply Ascii.eqb_eq in A. apply tolower_slash in A. subst c.
    exists r, a. rewrite <- accepts_root.
    repeat split; auto. apply Lang_opt_accidental. exact L.
  - intros [-> | (r & a & -> & R & L)]; auto.
    left. exists ["/"%char], (r :: a). repeat split.
    + exists "/"%char. auto.
    + exists [r], a. repeat split.
      * exists r. rewrite accepts_root. auto.
      * apply Lang_opt_accidental in L. exact L.
Qed.

Lemma Lang_chord_grammar : forall y,
    Lang true CHORD_TOKEN_RE y <-> spec_chord_grammar y.
Proof.
  intros y. unfold CHORD_TOKEN_RE, spec_chord_grammar.
  cbn [Lang]. split.
  - intros (x1 & x2 & -> & (c & -> & R) & (a & x3 & -> & A & (q & b & -> & Q & B))).
    exists c, a, q, b. rewrite <- accepts_root.
    repeat split; auto.
    + apply Lang_opt_accidental. exact A.
    + apply Lang_opt_quality. exact Q.
    + apply Lang_opt_bass. exact B.
  - intros (c & a & q & b & -> & R & A & Q & B).
    exists [c], (a ++ q ++ b). repeat split.
    + exists c. rewrite accepts_root. auto.
    + exists a, (q ++ b). repeat split.
      * apply Lang_opt_accidental in A. exact A.
      * exists q, b. repeat split.
        -- apply Lang_opt_quality in Q. exact Q.
        -- apply Lang_opt_bass in B. exact B.
Qed.

(** ** Letter case *)

Lemma accepts_tolower : forall a c, accepts true a (tolower c) = accepts true a c.
Proof.
  intros [x | lo hi | | |] c; cbn [accepts].
  - rewrite tolower_idempotent. reflexivity.
  - rewrite tolower_idempotent. reflexivity.
  - apply is_decimal_tolower.
  - apply is_space_tolower.
  - rewrite tolower_newline. reflexivity.
Qed.

Lemma deriv_tolower : forall r c, deriv true (tolower c) r = deriv true c r.
Proof.
  induction r as [| | a | r1 IH1 r2 IH2 | r1 IH1 r2 IH2 | r1 IH1];
    intros c; cbn [deriv]; auto.
  - rewrite accepts_tolower. reflexivity.
  - rewrite IH1, IH2. reflexivity.
  - rewrite IH1, IH2. reflexivity.
  - rewrite IH1. reflexivity.
Qed.

Lemma matches_tolower : forall x r,
    matches true r (map tolower x) = matches true r x.
Proof.
  induction x as [| c x IH]; intros r; cbn [map matches]; auto.
  rewrite deriv_tolower. apply IH.
Qed.

Lemma re_match_anchored_tolower : forall r x,
    re_match_anchored true r (map tolower x) = re_match_anchored true r x.
Proof.
  intros r x. unfold re_match_anchored.
  rewrite matches_tolower, <- map_rev.
  destruct (rev x) as [| c y]; cbn [map]; auto.
  rewrite tolower_newline, <- map_rev, matches_tolower. reflexivity.
Qed.

Lemma is_chord_token_tolower : forall t,
    is_chord_token (map tolower t) = is_chord_token t.
Proof.
  intros t. unfold is_chord_token. destruct t as [| c t]; auto.
  cbn [map is_empty]. change (tolower c :: map tolower t) with (map tolower (c :: t)).
  rewrite strip_map by apply is_space_tolower.
  apply re_match_anchored_tolower.
Qed.

Lemma is_chord_token_case : forall t1 t2,
    same_up_to_case t1 t2 -> is_chord_token t1 = is_chord_token t2.
Proof.
  unfold same_up_to_case. intros t1 t2 E.
  rewrite <- (is_chord_token_tolower t1), <- (is_chord_token_tolower t2).
  congruence.
Qed.

(** ** First characters of the three token kinds *)

Lemma chord_token_head : forall t,
    is_chord_token t = true -> exists c y, strip t = c :: y /\ spec_root c.
Proof.
  intros t H. apply is_chord_token_Lang, Lang_chord_grammar in H.
  destruct H as (c & a & q & b & E & R & _). eauto.
Qed.

Lemma paren_annotation_head : forall t,
    is_parenthetical_annotation t = true -> exists y, strip t = "("%char :: y.
Proof.
  intros t H. apply re_match_anchored_strip in H.
  destruct H as (x1 & x2 & E & (c & -> & A) & _).
  apply Ascii.eqb_eq in A. subst c. eauto.
Qed.

Lemma bar_separator_head : forall t,
    is_bar_separator t = true -> exists y, strip t = "|"%char :: y.
Proof.
  intros t H. apply re_match_anchored_strip in H.
  destruct H as (x1 & x2 & E & (c & -> & A) & _).
  apply Ascii.eqb_eq in A. subst c. eauto.
Qed.

Lemma paren_not_root : ~ spec_root "("%char.
Proof. unfold spec_root. cbv. intuition discriminate. Qed.

Lemma bar_not_root : ~ spec_root "|"%char.
Proof. unfold spec_root. cbv. intuition discriminate. Qed.

Lemma chord_not_paren : forall t,
    is_chord_token t = true -> is_parenthetical_annotation t = false.
Proof.
  intros t H. destruct (is_parenthetical_annotation t) eqn:P; auto.
  apply chord_token_head in H. destruct H as (c & y & E & R).
  apply paren_annotation_head in P. destruct P as (z & E').
  rewrite E in E'. injection E' as -> _. destruct (paren_not_root R).
Qed.

Lemma chord_not_bar : forall t,
    is_chord_token t = true -> is_bar_separator t = false.
Proof.
  intros t H. destruct (is_bar_separator t) eqn:P; auto.
  apply chord_token_head in H. destruct H as (c & y & E & R).
  apply bar_separator_head in P. destruct P as (z & E').
  rewrite E in E'. injection E' as -> _. destruct (bar_not_root R).
Qed.

Lemma paren_not_bar : forall t,
    is_parenthetical_annotation t = true -> is_bar_separator t = false.
Proof.
  intros t H. destruct (is_bar_separator t) eqn:P; auto.
  apply paren_annotation_head in H. destruct H as (y & E).
  apply bar_separator_head in P. destruct P as (z & E').
  rewrite E in E'. discriminate E'.
Qed.

(** A chord token holds no bracket. *)
Lemma chord_token_no_char : forall c t,
    is_space c = false ->
    never_accepts true c CHORD_TOKEN_RE = true ->
    is_chord_token t = true -> ~ In c t.
Proof.
  intros c t Hc N H I. apply is_chord_token_Lang in H.
  destruct (strip_decomp t) as (lead & trail & E & F1 & F2).
  rewrite E in I. apply in_app_or in I. destruct I as [I | I].
  - unfold all_space in F1. rewrite Forall_forall in F1. apply F1 in I. congruence.
  - apply in_app_or in I. destruct I as [I | I].
    + eapply never_accepts_Lang; eauto.
    + unfold all_space in F2. rewrite Forall_forall in F2. apply F2 in I. congruence.
Qed.

Lemma chord_token_no_open : forall t,
    is_chord_token t = true -> ~ In "["%char t.
Proof. intros t. apply chord_token_no_char; reflexivity. Qed.

Lemma chord_token_no_close : forall t,
    is_chord_token t = true -> ~ In "]"%char t.
Proof. intros t. apply chord_token_no_char; reflexivity. Qed.

(** ** The scan of a line *)

Lemma runs_head : forall c x, exists r rs, runs (c :: x) = (c :: r) :: rs.
Proof.
  intros c x. cbn [runs]. destruct (runs x) as [| [| d r] rs]; eauto.
  destruct (Bool.eqb (is_space c) (is_space d)); eauto.
Qed.

Lemma runs_cons : forall c x,
    runs (c :: x) =
    match runs x with
    | (d :: r) :: rs =>
        if Bool.eqb (is_space c) (is_space d)
        then (c :: d :: r) :: rs
        else [c] :: (d :: r) :: rs
    | _ => [[c]]
    end.
Proof. reflexivity. Qed.

Lemma concat_runs : forall x, concat (runs x) = x.
Proof.
  induction x as [| c x IH]; [reflexivity |].
  rewrite runs_cons. destruct x as [| e x]; [reflexivity |].
  destruct (runs_head e x) as (r & rs & E). rewrite E in *.
  destruct (Bool.eqb (is_space c) (is_space e)); simpl in *; congruence.
Qed.

Lemma homog_single : forall c, homog (is_space c) [c].
Proof. intros c. repeat constructor. Qed.

Lemma homog_cons : forall b c r, is_space c = b -> homog b r -> homog b (c :: r).
Proof. intros. constructor; auto. Qed.

Lemma homog_head : forall b c r, homog b (c :: r) -> is_space c = b.
Proof. intros b c r H. inversion H; auto. Qed.

Lemma runs_RunList : forall x, RunList (runs x).
Proof.
  induction x as [| c x IH]; [constructor |].
  rewrite runs_cons.
  destruct (runs x) as [| [| d r] rs] eqn:E;
    try (apply RunList_one with (b := is_space c);
         [discriminate | apply homog_single]).
  destruct (Bool.eqb (is_space c) (is_space d)) eqn:K.
  - apply Bool.eqb_prop in K.
    inversion IH as [| b r0 N H | b r0 r' rs' N H N' H' T]; subst.
    + apply RunList_one with (b := b); [discriminate |].
      apply homog_cons; auto. apply homog_head in H. congruence.
    + apply RunList_cons with (b := b); auto; [discriminate |].
      apply homog_cons; auto. apply homog_head in H. congruence.
  - apply Bool.eqb_false_iff in K.
    assert (exists b, homog b (d :: r)) as (b & H)
        by (inversion IH; subst; eauto).
    pose proof (homog_head _ _ _ H) as Hd.
    apply RunList_cons with (b := negb b); try discriminate.
    + constructor; [| constructor].
      destruct (is_space c), (is_space d), b; simpl in *; congruence.
    + rewrite negb_involutive. exact H.
    + exact IH.
Qed.

Lemma runs_homog : forall b r, r <> [] -> homog b r -> runs r = [r].
Proof.
  induction r as [| c r IH]; intros N H; [congruence |].
  rewrite runs_cons. destruct r as [| d r]; [reflexivity |].
  inversion H as [| ? ? Hc H']; subst.
  rewrite IH by (auto; discriminate).
  apply homog_head in H'. rewrite H', Bool.eqb_reflx. reflexivity.
Qed.

(** Two pieces whose facing characters are of different kinds are scanned
    independently. *)
Lemma runs_app : forall a b,
    (forall a' c d b', a = a' ++ [c] -> b = d :: b' -> is_space c <> is_space d) ->
    runs (a ++ b) = runs a ++ runs b.
Proof.
  induction a as [| c a IH]; intros b B; [reflexivity |].
  destruct a as [| e a].
  - destruct b as [| d b]; [reflexivity |].
    cbn [app]. rewrite runs_cons.
    destruct (runs_head d b) as (r & rs & E). rewrite E.
    specialize (B [] c d b eq_refl eq_refl).
    apply Bool.eqb_false_iff in B. rewrite B. reflexivity.
  - change ((c :: e :: a) ++ b) with (c :: ((e :: a) ++ b)).
    rewrite runs_cons, IH.
    + rewrite (runs_cons c (e :: a)).
      destruct (runs_head e a) as (r & rs & E). rewrite E. cbn [app].
      destruct (Bool.eqb (is_space c) (is_space e)); reflexivity.
    + intros a' x d b' Ea Eb. apply (B (c :: a') x d b'); auto.
      rewrite Ea. reflexivity.
Qed.

Lemma RunList_tail : forall r rs, RunList (r :: rs) -> RunList rs.
Proof. intros r rs H. inversion H; subst; auto. constructor. Qed.

Lemma RunList_In : forall rs r,
    RunList rs -> In r rs -> r <> [] /\ exists b, homog b r.
Proof.
  intros rs r H. induction H as [| b r0 N Hb | b r0 r' rs N Hb N' Hb' T IH];
    cbn [In]; intros I.
  - contradiction.
  - destruct I as [<- | []]. eauto.
  - destruct I as [<- | I]; eauto.
Qed.

Lemma RunList_adjacent : forall l1 r t l2,
    RunList (l1 ++ r :: t :: l2) ->
    exists b, r <> [] /\ homog b r /\ t <> [] /\ homog (negb b) t.
Proof.
  induction l1 as [| x l1 IH]; intros r t l2 H.
  - cbn [app] in H. inversion H; subst. eauto.
  - apply IH with (l2 := l2). eapply RunList_tail. exact H.
Qed.

Lemma with_start_app : forall a b p,
    with_start p (a ++ b)
    = with_start p a ++ with_start (p + Z.of_nat (length (concat a))) b.
Proof.
  induction a as [| r a IH]; intros b p; cbn [app with_start concat].
  - rewrite Z.add_0_r. reflexivity.
  - rewrite IH, length_app, Nat2Z.inj_add, Z.add_assoc. reflexivity.
Qed.

Lemma In_with_start : forall rs p q t,
    In (q, t) (with_start p rs) ->
    exists rs1 rs2, rs = rs1 ++ t :: rs2 /\ q = p + Z.of_nat (length (concat rs1)).
Proof.
  induction rs as [| r rs IH]; intros p q t I; cbn [with_start In] in I.
  - contradiction.
  - destruct I as [E | I].
    + injection E as <- <-. exists [], rs. split; [reflexivity |].
      simpl. lia.
    + apply IH in I. destruct I as (rs1 & rs2 & -> & ->).
      exists (r :: rs1), rs2. split; [reflexivity |].
      cbn [concat]. rewrite length_app, Nat2Z.inj_add. lia.
Qed.

Lemma with_start_lower : forall rs p q t,
    In (q, t) (with_start p rs) -> p <= q.
Proof.
  intros rs p q t I. apply In_with_start in I.
  destruct I as (rs1 & rs2 & _ & ->). lia.
Qed.

Lemma with_start_sorted : forall rs p,
    Forall (fun r => r <> []) rs -> StronglySorted by_start (with_start p rs).
Proof.
  induction rs as [| r rs IH]; intros p F; cbn [with_start].
  - constructor.
  - inversion F as [| ? ? N F']; subst. constructor; auto.
    apply Forall_forall. intros [q t] I. unfold by_start. cbn [fst].
    apply with_start_lower in I.
    destruct r; [congruence | simpl length in I; lia].
Qed.

Lemma StronglySorted_filter : forall (A : Type) (R : A -> A -> Prop) f l,
    StronglySorted R l -> StronglySorted R (filter f l).
Proof.
  intros A R f l H. induction H as [| a l H IH F]; cbn [filter].
  - constructor.
  - destruct (f a); auto. constructor; auto.
    apply Forall_forall. intros x I. apply filter_In in I.
    rewrite Forall_forall in F. apply F. tauto.
Qed.

Lemma RunList_nonempty : forall rs, RunList rs -> Forall (fun r => r <> []) rs.
Proof.
  intros rs H. apply Forall_forall. intros r I.
  eapply RunList_In in I; eauto. tauto.
Qed.

Lemma finditer_nonspace_sorted : forall x,
    StronglySorted by_start (finditer_nonspace x).
Proof.
  intros x. apply StronglySorted_filter, with_start_sorted,
              RunList_nonempty, runs_RunList.
Qed.

Lemma homog_unique : forall b b' r, r <> [] -> homog b r -> homog b' r -> b = b'.
Proof.
  intros b b' [| c r] N H H'; [congruence |].
  apply homog_head in H, H'. congruence.
Qed.

Lemma isspace_homog : forall b r, r <> [] -> homog b r -> isspace r = b.
Proof.
  intros b r N H. destruct r as [| c r]; [congruence |].
  unfold isspace. destruct b.
  - apply forallb_forall. unfold homog in H. rewrite Forall_forall in H. exact H.
  - apply homog_head in H. cbn [forallb]. rewrite H. reflexivity.
Qed.

Lemma homog_last : forall b r r' c, homog b r -> r = r' ++ [c] -> is_space c = b.
Proof.
  intros b r r' c H ->. unfold homog in H. rewrite Forall_forall in H.
  apply H. apply in_or_app. right. left. reflexivity.
Qed.

(** The matches of "\S+" are exactly the maximal non-whitespace runs, each
    with the offset of its first character. *)
Lemma finditer_nonspace_maximal : forall line p t,
    In (p, t) (finditer_nonspace line) <-> maximal_token line p t.
Proof.
  intros line p t. unfold finditer_nonspace, finditer_runs.
  rewrite filter_In. cbn [snd]. split.
  - intros [I S]. apply In_with_start in I.
    destruct I as (rs1 & rs2 & E & ->).
    pose proof (runs_RunList line) as RL. rewrite E in RL.
    assert (t <> [] /\ homog false t) as [N H].
    { destruct (RunList_In (rs1 ++ t :: rs2) t RL) as (N & b & H).
      - apply in_or_app. right. left. reflexivity.
      - split; auto. rewrite (isspace_homog _ _ N H) in S.
        destruct b; [discriminate | exact H]. }
    split; [exact N |]. split; [exact H |].
    exists (concat rs1), (concat rs2). repeat split.
    + rewrite <- (concat_runs line), E, concat_app. reflexivity.
    + intros pre' c Ep.
      destruct (@exists_last _ rs1) as (rs1' & r & ->).
      { intros ->. destruct pre'; discriminate Ep. }
      rewrite <- app_assoc in RL. cbn [app] in RL.
      apply RunList_adjacent in RL. destruct RL as (b & Nr & Hr & _ & Ht).
      pose proof (homog_unique _ _ _ N H Ht) as Eb.
      destruct (@exists_last _ r Nr) as (r' & e & ->).
      rewrite concat_app in Ep. cbn [concat] in Ep.
      rewrite app_nil_r, app_assoc in Ep.
      apply app_inj_tail in Ep. destruct Ep as [_ <-].
      rewrite (homog_last _ _ _ _ Hr eq_refl). destruct b; [reflexivity | discriminate].
    + intros d post' Ep. destruct rs2 as [| r2 rs2']; [discriminate |].
      apply RunList_adjacent in RL. destruct RL as (b & _ & Ht & N2 & H2).
      pose proof (homog_unique _ _ _ N H Ht) as <-.
      destruct r2 as [| d' r2]; [congruence |].
      cbn [concat app] in Ep. injection Ep as <- _.
      apply homog_head in H2. exact H2.
  - intros (N & H & pre & post & -> & -> & Bpre & Bpost).
    assert (exists c t', t = c :: t') as (c & t' & Et)
        by (destruct t; [congruence | eauto]).
    assert (exists t'' e, t = t'' ++ [e]) as (t'' & e & El)
        by (destruct (@exists_last _ t N) as (? & ? & ?); eauto).
    rewrite (isspace_homog _ _ N H). split; [| reflexivity].
    rewrite runs_app, runs_app, (runs_homog _ _ N H).
    + rewrite with_start_app. apply in_or_app. right.
      cbn [app with_start]. left. rewrite concat_runs. reflexivity.
    + intros a' x d b' Ea Eb. rewrite El in Ea.
      apply app_inj_tail in Ea. destruct Ea as [_ <-].
      rewrite (homog_last _ _ _ _ H El), (Bpost _ _ Eb). discriminate.
    + intros a' x d b' Ea Eb. rewrite Et in Eb. cbn [app] in Eb.
      injection Eb as <- _. rewrite Et in H.
      rewrite (homog_head _ _ _ H), (Bpre _ _ Ea). discriminate.
Qed.

(** ** The merge loop *)

Lemma fold_left_select : forall (A : Type) (f : A -> bool) l acc,
    fold_left (fun acc m => if f m then acc ++ [m] else acc) l acc
    = acc ++ filter f l.
Proof.
  intros A f. induction l as [| a l IH]; intros acc; cbn [fold_left filter].
  - rewrite app_nil_r. reflexivity.
  - rewrite IH. destruct (f a); [rewrite <- app_assoc |]; reflexivity.
Qed.

Lemma chord_positions_filter : forall chord_line,
    chord_positions chord_line
    = filter (fun m => is_chord_token (snd m)) (finditer_nonspace chord_line).
Proof. intros. unfold chord_positions. apply fold_left_select. Qed.

Lemma chord_positions_sorted : forall chord_line,
    StronglySorted by_start (chord_positions chord_line).
Proof.
  intros. rewrite chord_positions_filter.
  apply StronglySorted_filter, finditer_nonspace_sorted.
Qed.

Lemma chord_positions_nonneg : forall chord_line,
    Forall (fun m => 0 <= fst m) (chord_positions chord_line).
Proof.
  intros. rewrite chord_positions_filter. apply Forall_forall.
  intros [p t] I. apply filter_In in I. destruct I as [I _].
  unfold finditer_nonspace in I. apply filter_In in I. destruct I as [I _].
  apply with_start_lower in I. exact I.
Qed.

Lemma chord_positions_chords : forall chord_line p t,
    In (p, t) (chord_positions chord_line) -> is_chord_token t = true.
Proof.
  intros chord_line p t I. rewrite chord_positions_filter in I.
  apply filter_In in I. tauto.
Qed.

Lemma length_bracketed : forall t, length (bracketed t) = S (S (length t)).
Proof.
  intros t. unfold bracketed. cbn [s list_ascii_of_string app length].
  rewrite length_app. cbn [length]. lia.
Qed.

(** The two [if]s of the loop body clamp the index; the slice assignment
    then inserts at it. *)
Lemma insert_chord_spec : forall buf off pos t,
    insert_chord (buf, off) (pos, t)
    = (spec_insert_at buf (spec_clamp 0 (len buf) (pos + off)) (bracketed t),
       off + (len t + 2)).
Proof.
  intros buf off pos t. unfold insert_chord, spec_insert_at, spec_clamp, len.
  f_equal.
  - set (n := Z.of_nat (length buf)).
    assert (0 <= n) by (unfold n; lia).
    assert ((if (if pos + off <? 0 then 0 else pos + off) >? n
             then n else if pos + off <? 0 then 0 else pos + off)
            = Z.max 0 (Z.min n (pos + off))) as ->.
    { destruct (pos + off <? 0) eqn:E1;
        [apply Z.ltb_lt in E1 | apply Z.ltb_ge in E1].
      - destruct (0 >? n) eqn:E2; lia.
      - destruct (pos + off >? n) eqn:E2; lia. }
    set (i := Z.max 0 (Z.min n (pos + off))).
    assert (0 <= i <= n) by (unfold i; lia).
    unfold slice_assign, slice_bound. fold n.
    destruct (i <? 0) eqn:E; [apply Z.ltb_lt in E; lia |].
    rewrite (Z.min_l i n) by lia. rewrite Z.max_id. reflexivity.
  - rewrite length_bracketed. lia.
Qed.

Lemma merge_loop_spec : forall toks lyric off,
    fst (fold_left insert_chord toks (lyric, off)) = spec_merge_loop toks lyric off.
Proof.
  induction toks as [| [p t] toks IH]; intros lyric off;
    cbn [fold_left spec_merge_loop]; [reflexivity |].
  rewrite insert_chord_spec. apply IH.
Qed.

(** *** The closed form of the merge *)

Lemma firstn_skipn_app_exact : forall (A : Type) (a b : list A) k,
    firstn (length a + k) (a ++ b) = a ++ firstn k b
    /\ skipn (length a + k) (a ++ b) = skipn k b.
Proof.
  intros A a b k. split.
  - rewrite firstn_app_2. reflexivity.
  - rewrite skipn_app, skipn_all2 by lia.
    replace (length a + k - length a)%nat with k by lia. reflexivity.
Qed.

Lemma merge_loop_weave : forall toks done rest off from,
    StronglySorted by_start toks ->
    Forall (fun m => from <= fst m) toks ->
    0 <= from -> len done = from + off ->
    fst (fold_left insert_chord toks (done ++ rest, off))
    = done ++ weave from toks rest.
Proof.
  induction toks as [| [p t] toks IH]; intros done rest off from S F H0 HL;
    cbn [fold_left weave]; [reflexivity |].
  inversion S as [| ? ? S' Lt]; subst.
  inversion F as [| ? ? Hp F']; subst. cbn [fst] in Hp.
  rewrite insert_chord_spec. unfold spec_insert_at, spec_clamp.
  set (k := Z.to_nat (Z.min (p - from) (len rest))).
  assert (Z.of_nat k = Z.min (p - from) (len rest)) as Hk
      by (unfold k, len; lia).
  assert (Z.to_nat (Z.max 0 (Z.min (len (done ++ rest)) (p + off)))
          = (length done + k)%nat) as ->.
  { unfold len in *. rewrite length_app. lia. }
  destruct (firstn_skipn_app_exact _ done rest k) as [-> ->].
  replace ((done ++ firstn k rest) ++ bracketed t ++ skipn k rest)
    with ((done ++ firstn k rest ++ bracketed t) ++ skipn k rest)
    by (rewrite <- !app_assoc; reflexivity).
  rewrite IH with (from := from + Z.of_nat k).
  - rewrite <- !app_assoc. reflexivity.
  - exact S'.
  - rewrite Forall_forall in *. intros m I. apply Lt in I.
    unfold by_start in I. cbn [fst] in I. lia.
  - lia.
  - unfold len in *. rewrite !length_app, length_firstn, length_bracketed. lia.
Qed.

Lemma merge_weave : forall chord_line lyric_line,
    merge_chords_and_lyrics chord_line lyric_line
    = weave 0 (chord_positions chord_line) lyric_line.
Proof.
  intros. unfold merge_chords_and_lyrics.
  apply (merge_loop_weave (chord_positions chord_line) [] lyric_line 0 0).
  - apply chord_positions_sorted.
  - apply chord_positions_nonneg.
  - lia.
  - reflexivity.
Qed.

(** *** Weaving *)

Lemma Woven_app_l : forall x bs l m, Woven bs l m -> Woven bs (x ++ l) (x ++ m).
Proof.
  induction x as [| c x IH]; intros bs l m W; cbn [app]; auto.
  apply Woven_keep. auto.
Qed.

Lemma weave_Woven : forall toks from rest,
    Woven (brackets toks) rest (weave from toks rest).
Proof.
  induction toks as [| [p t] toks IH]; intros from rest; cbn [weave brackets map snd].
  - apply Woven_done.
  - set (k := Z.to_nat (Z.min (p - from) (len rest))).
    rewrite <- (firstn_skipn k rest) at 1.
    apply Woven_app_l, Woven_block, IH.
Qed.

Lemma Woven_length : forall bs l m,
    Woven bs l m -> length m = (length l + length (concat bs))%nat.
Proof.
  intros bs l m W. induction W; cbn [length concat].
  - lia.
  - lia.
  - rewrite !length_app. lia.
Qed.

Lemma count_app : forall c x y, count c (x ++ y) = (count c x + count c y)%nat.
Proof. intros. unfold count. apply count_occ_app. Qed.

Lemma Woven_count : forall c bs l m,
    Woven bs l m -> count c m = (count c l + count c (concat bs))%nat.
Proof.
  intros c bs l m W. induction W; cbn [concat].
  - unfold count. cbn [count_occ]. lia.
  - unfold count in *. cbn [count_occ]. destruct (ascii_dec c0 c); lia.
  - rewrite !count_app. lia.
Qed.

Lemma count_absent : forall c x, ~ In c x -> count c x = 0%nat.
Proof. intros c x H. unfold count. apply count_occ_not_In. exact H. Qed.

(** *** Tokens past the end of the lyric *)

Lemma weave_all_late : forall toks from rest,
    Forall (fun m => from + len rest <= fst m) toks ->
    weave from toks rest = rest ++ concat (brackets toks).
Proof.
  induction toks as [| [p t] toks IH]; intros from rest F;
    cbn [weave brackets map concat snd].
  - rewrite app_nil_r. reflexivity.
  - inversion F as [| ? ? Hp F']; subst. cbn [fst] in Hp.
    replace (Z.to_nat (Z.min (p - from) (len rest))) with (length rest)
      by (unfold len in *; lia).
    rewrite firstn_all, skipn_all. f_equal. f_equal.
    rewrite IH; [reflexivity |].
    eapply Forall_impl; [| exact F']. intros m H. cbn beta in *.
    unfold len in *. cbn [length]. lia.
Qed.

Lemma weave_late : forall early late from rest,
    Forall (fun m => from + len rest <= fst m) late ->
    weave from (early ++ late) rest
    = weave from early rest ++ concat (brackets late).
Proof.
  induction early as [| [p t] early IH]; intros late from rest F; cbn [app weave].
  - apply weave_all_late. exact F.
  - set (k := Z.to_nat (Z.min (p - from) (len rest))).
    assert (k <= length rest)%nat by (unfold k, len; lia).
    rewrite IH.
    + rewrite <- !app_assoc. reflexivity.
    + eapply Forall_impl; [| exact F]. intros m Hm. cbn beta in *.
      unfold len in *. rewrite length_skipn. lia.
Qed.

Lemma filter_all : forall (A : Type) (f : A -> bool) l,
    Forall (fun a => f a = true) l -> filter f l = l.
Proof.
  intros A f l F. induction F as [| a l Ha F IH]; cbn [filter]; auto.
  rewrite Ha, IH. reflexivity.
Qed.

(** In a list sorted by offset, what follows an element is what starts
    after it. *)
Lemma sorted_split : forall l a,
    StronglySorted by_start l -> In a l ->
    exists before, l = before ++ a :: filter (fun m => fst a <? fst m) l.
Proof.
  intros l a S. induction S as [| x l S IH F]; intros I; cbn [In] in I.
  - contradiction.
  - rewrite Forall_forall in F. destruct I as [-> | I].
    + exists []. cbn [app filter]. rewrite Z.ltb_irrefl.
      rewrite filter_all; [reflexivity |].
      apply Forall_forall. intros m Im. apply Z.ltb_lt. apply F. exact Im.
    + destruct (IH I) as (before & E). exists (x :: before).
      cbn [filter]. pose proof (F a I) as Lt. unfold by_start in Lt.
      destruct (fst a <? fst x) eqn:K; [apply Z.ltb_lt in K; lia |].
      cbn [app]. f_equal. exact E.
Qed.

Lemma merge_late_suffix : forall chord_line lyric_line p t,
    In (p, t) (chord_positions chord_line) ->
    len lyric_line <= p ->
    exists pre,
      merge_chords_and_lyrics chord_line lyric_line
      = pre ++ bracketed t
            ++ concat (brackets (filter (fun m => p <? fst m)
                                        (chord_positions chord_line))).
Proof.
  intros chord_line lyric_line p t I Hp.
  destruct (sorted_split _ _ (chord_positions_sorted chord_line) I) as (before & E).
  cbn [fst] in E. rewrite merge_weave.
  set (after := filter (fun m => p <? fst m) (chord_positions chord_line)) in *.
  exists (weave 0 before lyric_line).
  rewrite E at 1.
  rewrite weave_late; [reflexivity |].
  constructor.
  - cbn [fst]. lia.
  - apply Forall_forall. intros m Im. unfold after in Im.
    apply filter_In in Im. destruct Im as [_ Im]. apply Z.ltb_lt in Im. lia.
Qed.

(** ** The standalone formatter *)

Lemma fold_left_append_map : forall (A B : Type) (f : A -> B) l acc,
    fold_left (fun parts a => parts ++ [f a]) l acc = acc ++ map f l.
Proof.
  intros A B f. induction l as [| a l IH]; intros acc; cbn [fold_left map].
  - rewrite app_nil_r. reflexivity.
  - rewrite IH, <- app_assoc. reflexivity.
Qed.

Lemma format_chord_only_line_map : forall line,
    format_chord_only_line line = concat (map format_piece (runs line)).
Proof. intros. unfold format_chord_only_line. rewrite fold_left_append_map. reflexivity. Qed.

Lemma isspace_all_space : forall tok, isspace tok = true -> all_space tok.
Proof.
  intros [| c tok] H; [discriminate |].
  unfold isspace in H. apply Forall_forall. apply forallb_forall. exact H.
Qed.

Lemma isspace_not_chord : forall tok, isspace tok = true -> is_chord_token tok = false.
Proof.
  intros tok H. destruct (is_chord_token tok) eqn:C; auto.
  apply chord_token_head in C. destruct C as (c & y & E & _).
  rewrite (strip_all_space _ (isspace_all_space _ H)) in E. discriminate.
Qed.

(** The four branches of the loop body come to two. *)
Lemma format_piece_spec : forall tok, format_piece tok = spec_format_piece tok.
Proof.
  intros tok. unfold format_piece, spec_format_piece.
  destruct (isspace tok) eqn:S.
  - rewrite (isspace_not_chord _ S). reflexivity.
  - destruct (is_chord_token tok); [reflexivity |].
    destruct (is_parenthetical_annotation tok || is_bar_separator tok)%bool; reflexivity.
Qed.

Lemma format_chord_only_line_spec : forall line,
    format_chord_only_line line = concat (map spec_format_piece (runs line)).
Proof.
  intros. rewrite format_chord_only_line_map. f_equal.
  apply map_ext. apply format_piece_spec.
Qed.

Lemma format_no_chords : forall rs,
    Forall (fun tok => is_chord_token tok = false) rs ->
    concat (map spec_format_piece rs) = concat rs.
Proof.
  intros rs F. induction F as [| r rs H F IH]; cbn [map concat]; auto.
  unfold spec_format_piece at 1. rewrite H, IH. reflexivity.
Qed.

Lemma format_length : forall rs,
    length (concat (map spec_format_piece rs))
    = (length (concat rs) + 2 * length (filter is_chord_token rs))%nat.
Proof.
  induction rs as [| r rs IH]; cbn [map concat filter]; auto.
  rewrite !length_app, IH. unfold spec_format_piece.
  destruct (is_chord_token r); cbn [length].
  - fold (bracketed r). rewrite length_bracketed. lia.
  - lia.
Qed.

(** The tokens of [split] are the runs that are not whitespace. *)
Lemma split_runs : forall line,
    split line = filter (fun r => negb (isspace r)) (runs line).
Proof.
  intros line. unfold split, finditer_nonspace, finditer_runs.
  generalize 0. induction (runs line) as [| r rs IH]; intros p;
    cbn [with_start filter map snd]; auto.
  destruct (negb (isspace r)); cbn [map snd]; rewrite IH; reflexivity.
Qed.

Lemma chord_tokens_of_runs : forall line,
    filter is_chord_token (runs line) = filter is_chord_token (split line).
Proof.
  intros line. rewrite split_runs.
  induction (runs line) as [| r rs IH]; cbn [filter]; auto.
  destruct (isspace r) eqn:S; cbn [negb filter].
  - rewrite (isspace_not_chord _ S). exact IH.
  - destruct (is_chord_token r); rewrite IH; reflexivity.
Qed.

Lemma split_nonempty : forall line, Forall (fun tok => tok <> []) (split line).
Proof.
  intros line. rewrite split_runs. apply Forall_forall. intros r I.
  apply filter_In in I. destruct I as [I _].
  pose proof (RunList_nonempty _ (runs_RunList line)) as F.
  rewrite Forall_forall in F. apply F. exact I.
Qed.

Lemma chord_positions_split : forall line,
    map snd (chord_positions line) = filter is_chord_token (split line).
Proof.
  intros line. rewrite chord_positions_filter. unfold split.
  induction (finditer_nonspace line) as [| [p t] l IH]; cbn [filter map snd]; auto.
  destruct (is_chord_token t); cbn [map snd]; rewrite IH; reflexivity.
Qed.

(** ** Chord-only lines *)

Lemma all_tokens_allowed_Forall : forall tokens,
    all_tokens_allowed tokens = true ->
    Forall (fun tok => (is_chord_token tok || is_parenthetical_annotation tok
                        || is_bar_separator tok)%bool = true) tokens.
Proof.
  induction tokens as [| tok rest IH]; cbn [all_tokens_allowed]; intros H.
  - constructor.
  - destruct (is_chord_token tok || is_parenthetical_annotation tok
              || is_bar_separator tok)%bool eqn:K; [| discriminate].
    constructor; auto.
Qed.

Lemma filter_nonempty_split : forall line,
    filter (fun tok => negb (is_empty tok)) (split line) = split line.
Proof.
  intros line. apply filter_all.
  eapply Forall_impl; [| apply split_nonempty].
  intros [| c tok] H; [congruence | reflexivity].
Qed.

Lemma chord_only_tokens : forall line,
    is_chord_only_line line = true ->
    split line <> [] /\
    Forall (fun tok => (is_chord_token tok || is_parenthetical_annotation tok
                        || is_bar_separator tok)%bool = true) (split line).
Proof.
  intros line. unfold is_chord_only_line. rewrite filter_nonempty_split.
  destruct (split line) as [| tok rest] eqn:E; cbn [is_empty]; [discriminate |].
  intros H. split; [discriminate |]. apply all_tokens_allowed_Forall. exact H.
Qed.

(** On an allowed token list, chords and the other two kinds partition the
    tokens. *)
Lemma allowed_partition : forall tokens,
    Forall (fun tok => (is_chord_token tok || is_parenthetical_annotation tok
                        || is_bar_separator tok)%bool = true) tokens ->
    (length (filter is_chord_token tokens)
     + length (filter (fun tok => (is_parenthetical_annotation tok
                                   || is_bar_separator tok)%bool) tokens))%nat
    = length tokens.
Proof.
  intros tokens F. induction F as [| tok rest H F IH]; cbn [filter length]; auto.
  destruct (is_chord_token tok) eqn:C.
  - rewrite (chord_not_paren _ C), (chord_not_bar _ C). cbn [orb length]. lia.
  - cbn [orb] in H. rewrite H. cbn [length]. lia.
Qed.

(** ** Brackets *)

Lemma count_bracketed_open : forall t,
    ~ In "["%char t -> count "[" (bracketed t) = 1%nat.
Proof.
  intros t H. unfold bracketed. rewrite !count_app, (count_absent _ _ H).
  reflexivity.
Qed.

Lemma count_bracketed_close : forall t,
    ~ In "]"%char t -> count "]" (bracketed t) = 1%nat.
Proof.
  intros t H. unfold bracketed. rewrite !count_app, (count_absent _ _ H).
  reflexivity.
Qed.

Lemma count_brackets : forall toks,
    Forall (fun m => is_chord_token (snd m) = true) toks ->
    count "[" (concat (brackets toks)) = length toks
    /\ count "]" (concat (brackets toks)) = length toks.
Proof.
  intros toks F. induction F as [| [p t] toks H F [IH1 IH2]];
    cbn [brackets map concat length snd]; [split; reflexivity |].
  fold (brackets toks). rewrite !count_app, IH1, IH2. cbn [snd] in H.
  rewrite (count_bracketed_open _ (chord_token_no_open _ H)).
  rewrite (count_bracketed_close _ (chord_token_no_close _ H)).
  split; reflexivity.
Qed.

Lemma chord_positions_all_chords : forall line,
    Forall (fun m => is_chord_token (snd m) = true) (chord_positions line).
Proof.
  intros line. apply Forall_forall. intros [p t] I.
  exact (chord_positions_chords _ _ _ I).
Qed.

Lemma merge_Woven : forall chord_line lyric_line,
    Woven (brackets (chord_positions chord_line)) lyric_line
          (merge_chords_and_lyrics chord_line lyric_line).
Proof. intros. rewrite merge_weave. apply weave_Woven. Qed.

Lemma merge_counts : forall chord_line lyric_line,
    let merged := merge_chords_and_lyrics chord_line lyric_line in
    let n := length (filter is_chord_token (split chord_line)) in
    (length lyric_line <= length merged)%nat
    /\ count "[" merged = (count "[" lyric_line + n)%nat
    /\ count "]" merged = (count "]" lyric_line + n)%nat.
Proof.
  intros chord_line lyric_line merged n.
  pose proof (merge_Woven chord_line lyric_line) as W. fold merged in W.
  destruct (count_brackets _ (chord_positions_all_chords chord_line)) as [C1 C2].
  assert (length (chord_positions chord_line) = n) as E.
  { unfold n. rewrite <- chord_positions_split, length_map. reflexivity. }
  rewrite (Woven_count "[" _ _ _ W), (Woven_count "]" _ _ _ W), C1, C2, E.
  rewrite (Woven_length _ _ _ W). repeat split; lia.
Qed.

(** ** Section headers *)

Lemma Lang_section_header : forall line,
    Lang false SECTION_HEADER_RE line <->
    exists lead body trail,
      line = lead ++ (s "[" ++ body ++ s "]") ++ trail
      /\ all_space lead /\ all_space trail /\ ~ In newline body.
Proof.
  intros line. unfold SECTION_HEADER_RE. cbn [Lang accepts]. split.
  - intros (lead & x1 & -> & L1 & x2 & x3 & -> & (c & -> & A)
            & body & x4 & -> & L2 & x5 & trail & -> & (d & -> & B) & L3).
    apply Ascii.eqb_eq in A, B. subst c d.
    apply (Lang_Star_Atom false Space) in L1, L3.
    apply (Lang_Star_Atom false AnyChar) in L2.
    exists lead, body, trail. repeat split; auto.
    + rewrite <- !app_assoc. reflexivity.
    + intros I. rewrite Forall_forall in L2. apply L2 in I.
      cbn [accepts] in I. rewrite Ascii.eqb_refl in I. discriminate.
  - intros (lead & body & trail & -> & F1 & F2 & NB).
    exists lead, (s "[" ++ body ++ s "]" ++ trail). repeat split.
    + rewrite <- !app_assoc. reflexivity.
    + apply (Lang_Star_Atom false Space). exact F1.
    + exists (s "["), (body ++ s "]" ++ trail). repeat split.
      * exists "["%char. auto.
      * exists body, (s "]" ++ trail). repeat split.
        -- apply (Lang_Star_Atom false AnyChar). apply Forall_forall.
           intros c I. cbn [accepts]. destruct (Ascii.eqb c newline) eqn:K; auto.
           apply Ascii.eqb_eq in K. subst. contradiction.
        -- exists (s "]"), trail. repeat split.
           ++ exists "]"%char. auto.
           ++ apply (Lang_Star_Atom false Space). exact F2.
Qed.

(** On a line without a newline the pattern of the pass tests that the
    trimmed line begins with "[" and ends with "]". *)
Lemma section_header_spec : forall line,
    ~ In newline line ->
    (re_match_anchored false SECTION_HEADER_RE line = true
     <-> bracket_delimited line).
Proof.
  intros line NL. rewrite re_match_anchored_Lang. unfold bracket_delimited. split.
  - intros [L | (y & -> & _)].
    + apply Lang_section_header in L.
      destruct L as (lead & body & trail & -> & F1 & F2 & _).
      exists body. cbn [s list_ascii_of_string app].
      apply strip_between with (front := "["%char :: body) (d := "]"%char);
        auto; reflexivity.
    + destruct NL. apply in_or_app. right. left. reflexivity.
  - intros (body & E). left. apply Lang_section_header.
    destruct (strip_decomp line) as (lead & trail & El & F1 & F2).
    exists lead, body, trail. rewrite <- E. repeat split; auto.
    intros I. apply NL. rewrite El, E.
    apply in_or_app. right. apply in_or_app. left.
    apply in_or_app. right. apply in_or_app. left. exact I.
Qed.

Lemma single_bracketed_strip : forall line,
    spec_single_bracketed_token line ->
    exists body, strip line = s "[" ++ body ++ s "]"
                 /\ Forall (fun c => is_space c = false) body.
Proof.
  intros line (lead & body & trail & -> & F1 & F2 & NB).
  exists body. split; [| exact NB].
  cbn [s list_ascii_of_string app].
  apply strip_between with (front := "["%char :: body) (d := "]"%char);
    auto; reflexivity.
Qed.

Lemma single_bracketed_delimited : forall line,
    spec_single_bracketed_token line -> bracket_delimited line.
Proof.
  intros line H. apply single_bracketed_strip in H.
  destruct H as (body & E & _). exists body. exact E.
Qed.

(** ** The loop *)

Lemma getitem_nth : forall (A : Type) (l : list A) i,
    0 <= i -> getitem l i = nth_error l (Z.to_nat i).
Proof.
  intros A l i H. unfold getitem.
  destruct (i <? 0) eqn:E; [apply Z.ltb_lt in E; lia |].
  destruct (0 <=? i) eqn:E1; [| apply Z.leb_gt in E1; lia].
  destruct (i <? Z.of_nat (length l)) eqn:E2; cbn [andb]; auto.
  apply Z.ltb_ge in E2. symmetry. apply nth_error_None. lia.
Qed.

Lemma getitem_app : forall (A : Type) (prefix suffix : list A) a,
    getitem (prefix ++ a :: suffix) (Z.of_nat (length prefix)) = Some a.
Proof.
  intros. rewrite getitem_nth by lia. rewrite Nat2Z.id.
  rewrite nth_error_app2 by lia. rewrite Nat.sub_diag. reflexivity.
Qed.

Lemma loop_body_pass : forall prefix cur rest acc,
    loop_body (prefix ++ cur :: rest) (mkState (Z.of_nat (length prefix)) acc)
    = match rest with
      | next :: _ =>
          if (is_chord_only_line cur && mergeable next)%bool
          then Ok (mkState (Z.of_nat (length prefix) + 2)
                           (acc ++ [merge_chords_and_lyrics cur next]))
          else Ok (mkState (Z.of_nat (length prefix) + 1)
                           (acc ++ [if is_chord_only_line cur
                                    then format_chord_only_line cur else cur]))
      | [] =>
          Ok (mkState (Z.of_nat (length prefix) + 1)
                      (acc ++ [if is_chord_only_line cur
                               then format_chord_only_line cur else cur]))
      end.
Proof.
  intros prefix cur rest acc. unfold loop_body, emit. cbn [idx out].
  rewrite getitem_app.
  destruct (is_chord_only_line cur); cbn [andb]; [| destruct rest; reflexivity].
  rewrite length_app.
  destruct rest as [| next rest]; cbn [length];
    match goal with
    | |- context [?a <? ?b] => destruct (Z.ltb_spec a b); try lia
    end; [reflexivity |].
  - replace (Z.of_nat (length prefix) + 1) with (Z.of_nat (length (prefix ++ [cur])))
      by (rewrite length_app; cbn [length]; lia).
    replace (prefix ++ cur :: next :: rest) with ((prefix ++ [cur]) ++ next :: rest)
      by (rewrite <- app_assoc; reflexivity).
    rewrite getitem_app. fold (mergeable next).
    destruct (mergeable next); reflexivity.
Qed.

Lemma while_loop_pass : forall fuel prefix suffix acc,
    (length suffix <= fuel)%nat ->
    while_loop fuel (prefix ++ suffix) (mkState (Z.of_nat (length prefix)) acc)
    = Ok (mkState (Z.of_nat (length (prefix ++ suffix))) (acc ++ pass suffix)).
Proof.
  induction fuel as [| fuel IH]; intros prefix suffix acc Hf.
  - destruct suffix; [| cbn [length] in Hf; lia].
    cbn [while_loop idx pass]. rewrite !app_nil_r, Z.ltb_irrefl. reflexivity.
  - destruct suffix as [| cur rest].
    + cbn [while_loop idx pass]. rewrite !app_nil_r, Z.ltb_irrefl. reflexivity.
    + cbn [while_loop idx].
      match goal with
      | |- context [?a <? ?b] => destruct (Z.ltb_spec a b) as [_ | E]
      end; [| rewrite length_app in E; cbn [length] in E; lia].
      rewrite loop_body_pass. cbn [length] in Hf.
      assert (forall line,
                 while_loop fuel (prefix ++ cur :: rest)
                   (mkState (Z.of_nat (length prefix) + 1) (acc ++ [line]))
                 = Ok (mkState (Z.of_nat (length (prefix ++ cur :: rest)))
                               (acc ++ line :: pass rest))) as One.
      { intros line.
        replace (Z.of_nat (length prefix) + 1) with (Z.of_nat (length (prefix ++ [cur])))
          by (rewrite length_app; cbn [length]; lia).
        replace (prefix ++ cur :: rest) with ((prefix ++ [cur]) ++ rest)
          by (rewrite <- app_assoc; reflexivity).
        rewrite IH by lia. rewrite <- !app_assoc. reflexivity. }
      destruct rest as [| next rest'].
      * rewrite One. cbn [pass]. destruct (is_chord_only_line cur); reflexivity.
      * destruct (is_chord_only_line cur) eqn:C; cbn [andb pass]; rewrite C.
        -- destruct (mergeable next) eqn:M.
           ++ replace (Z.of_nat (length prefix) + 2)
                with (Z.of_nat (length (prefix ++ [cur; next])))
                by (rewrite length_app; cbn [length]; lia).
              replace (prefix ++ cur :: next :: rest')
                with ((prefix ++ [cur; next]) ++ rest')
                by (rewrite <- app_assoc; reflexivity).
              cbn [length] in Hf. rewrite IH by lia.
              rewrite <- !app_assoc. reflexivity.
           ++ apply One.
        -- apply One.
Qed.

Lemma process_lines_pass : forall lines, process_lines lines = Ok (pass lines).
Proof.
  intros lines. unfold process_lines.
  pose proof (while_loop_pass (length lines) [] lines [] (le_n _)) as H.
  cbn [app length Z.of_nat] in H. rewrite H. reflexivity.
Qed.

Lemma pass_cons : forall cur rest,
    pass (cur :: rest)
    = if is_chord_only_line cur then
        match rest with
        | next :: rest' =>
            if mergeable next
            then merge_chords_and_lyrics cur next :: pass rest'
            else format_chord_only_line cur :: pass rest
        | [] => format_chord_only_line cur :: pass rest
        end
      else cur :: pass rest.
Proof. reflexivity. Qed.

Lemma pass_length_bounded : forall n lines,
    (length lines <= n)%nat -> (length (pass lines) <= length lines)%nat.
Proof.
  induction n as [| n IH]; intros lines Hn.
  - destruct lines; [auto | cbn [length] in Hn; lia].
  - destruct lines as [| cur rest]; [auto |].
    rewrite pass_cons. cbn [length] in Hn.
    assert (length (pass rest) <= length rest)%nat as Hrest by (apply IH; lia).
    destruct (is_chord_only_line cur); [| cbn [length]; lia].
    destruct rest as [| next rest']; [cbn [length] in *; lia |].
    destruct (mergeable next); [| cbn [length] in *; lia].
    assert (length (pass rest') <= length rest')%nat
      by (apply IH; cbn [length] in Hn; lia).
    cbn [length]. lia.
Qed.

Lemma pass_length : forall lines, (length (pass lines) <= length lines)%nat.
Proof. intros lines. apply (pass_length_bounded (length lines)). lia. Qed.

(** ** Scenarios of the source's documentation *)

Example merge_scenario :
  merge_chords_and_lyrics (s "Em    D    Bm  C") (s "Here are the lyrics")
  = s "[Em]Here a[D]re th[Bm]e ly[C]rics".
Proof. vm_compute. reflexivity. Qed.

Example format_scenario :
  format_chord_only_line (s "| B   | A   | E   | E   | x2")
  = s "| [B]   | [A]   | [E]   | [E]   | x2".
Proof. vm_compute. reflexivity. Qed.

Example chord_tokens_accepted :
  map is_chord_token (map s ["C"; "Am"; "F#m7"; "Bbmaj7"; "C/E"; "am"; "AM"]%string)
  = [true; true; true; true; true; true; true].
Proof. vm_compute. reflexivity. Qed.

Example chord_tokens_rejected :
  map is_chord_token (map s ["She"; "the"; "and"; "Hello"; "word"; "x2"; "|"; "(x2)"; EmptyString; "G7"]%string)
  = [false; false; false; false; false; false; false; false; false; false].
Proof. vm_compute. reflexivity. Qed.

Example process_scenario :
  process_lines (map s ["[Chorus]"; "Em   D"; "She loves you"; "A  E  (x2)"; EmptyString; "C"]%string)
  = Ok (map s ["[Chorus]"; "[Em]She l[D]oves you"; "[A]  [E]  (x2)"; EmptyString; "[C]"]%string).
Proof. vm_compute. reflexivity. Qed.

(** ** The claims *)

(** C1.  The merge collects the maximal non-whitespace tokens of the chord
    line with their 0-based start offsets, keeps those that are chords (so no
    bar separator and no annotation is kept), in increasing offset order, and
    then inserts "[t]" for each kept token [(p, t)] at index
    [p + runningOffset] clamped into [0, current length], the running offset
    starting at 0 and growing by [len(t) + 2]. *)
Theorem merge_follows_design : forall chord_line lyric_line,
    (forall p t, In (p, t) (finditer_nonspace chord_line)
                 <-> maximal_token chord_line p t)
    /\ chord_positions chord_line
       = filter (fun m => is_chord_token (snd m)) (finditer_nonspace chord_line)
    /\ (forall p t, In (p, t) (chord_positions chord_line) ->
                    is_bar_separator t = false
                    /\ is_parenthetical_annotation t = false)
    /\ StronglySorted by_start (chord_positions chord_line)
    /\ merge_chords_and_lyrics chord_line lyric_line
       = spec_merge_loop (chord_positions chord_line) lyric_line 0.
Proof.
  intros chord_line lyric_line.
  split; [intros p t; apply finditer_nonspace_maximal |].
  split; [apply chord_positions_filter |].
  split; [| split; [apply chord_positions_sorted | apply merge_loop_spec]].
  intros p t I. apply chord_positions_chords in I.
  split; [apply chord_not_bar | apply chord_not_paren]; exact I.
Qed.

Lemma merge_follows_design_witness :
  is_bar_separator (s "Em") = false
  /\ merge_chords_and_lyrics (s "Em | D") (s "Here")
     = spec_merge_loop [(0, s "Em"); (5, s "D")] (s "Here") 0.
Proof.
  destruct (merge_follows_design (s "Em | D") (s "Here")) as (_ & _ & K & _ & M).
  split.
  - apply (K 0 (s "Em")). vm_compute. left. reflexivity.
  - rewrite M. vm_compute. reflexivity.
Defined.

(** C2, as the claim states it, fails: the pass also refuses to merge with a
    next line that merely begins with "[" and ends with "]", though it is
    not a single bracketed token. *)
Lemma header_counterexample :
  ~ (forall lines i acc cur next,
        0 <= i ->
        nth_error lines (Z.to_nat i) = Some cur ->
        Forall (fun l => ~ In newline l) lines ->
        is_chord_only_line cur = true ->
        nth_error lines (Z.to_nat (i + 1)) = Some next ->
        strip next <> [] -> ~ spec_single_bracketed_token next ->
        loop_body lines (mkState i acc)
        = Ok (mkState (i + 2) (acc ++ [merge_chords_and_lyrics cur next]))).
Proof.
  intros H.
  specialize (H [s "G"; s "[a] b [c]"] 0 [] (s "G") (s "[a] b [c]")).
  assert (loop_body [s "G"; s "[a] b [c]"] (mkState 0 [])
          = Ok (mkState 1 [s "[G]"])) as Code by (vm_compute; reflexivity).
  rewrite Code in H.
  assert (Ok (mkState 1 [s "[G]"])
          = Ok (mkState (0 + 2)
                  ([] ++ [merge_chords_and_lyrics (s "G") (s "[a] b [c]")]))) as E.
  { apply H.
    - lia.
    - reflexivity.
    - repeat constructor; vm_compute; intuition discriminate.
    - vm_compute. reflexivity.
    - reflexivity.
    - vm_compute. discriminate.
    - intros S. apply single_bracketed_strip in S.
      destruct S as (body & Eb & NB).
      change (strip (s "[a] b [c]")) with ("["%char :: (s "a] b [c" ++ s "]")) in Eb.
      cbn [s list_ascii_of_string app] in Eb. injection Eb as Eb.
      change ["a"; "]"; " "; "b"; " "; "["; "c"; "]"]%char
        with (["a"; "]"; " "; "b"; " "; "["; "c"]%char ++ ["]"%char]) in Eb.
      apply app_inj_tail in Eb. destruct Eb as [<- _].
      rewrite Forall_forall in NB.
      specialize (NB " "%char). cbn [In] in NB.
      assert (is_space " " = false) as K by (apply NB; auto).
      discriminate K. }
  injection E as E _. discriminate E.
Qed.

(** C2, amended.  One step of the pass, on lines that hold no newline: a
    line that is not chord-only is emitted unchanged and the index advances
    by 1; a chord-only line followed by a line that is not blank after
    trimming and whose trimmed form does not both begin with "[" and end
    with "]" is merged with it and the index advances by 2; a chord-only
    line in any other position is formatted standalone and the index
    advances by 1.  Every line that is a single bracketed token is among
    the lines that begin with "[" and end with "]". *)
Theorem pass_controller_step : forall lines i acc cur,
    0 <= i ->
    nth_error lines (Z.to_nat i) = Some cur ->
    Forall (fun l => ~ In newline l) lines ->
    (is_chord_only_line cur = false ->
     loop_body lines (mkState i acc) = Ok (mkState (i + 1) (acc ++ [cur])))
    /\ (is_chord_only_line cur = true ->
        (forall next,
            nth_error lines (Z.to_nat (i + 1)) = Some next ->
            strip next <> [] -> ~ bracket_delimited next ->
            loop_body lines (mkState i acc)
            = Ok (mkState (i + 2) (acc ++ [merge_chords_and_lyrics cur next])))
        /\ (nth_error lines (Z.to_nat (i + 1)) = None
            \/ (exists next,
                   nth_error lines (Z.to_nat (i + 1)) = Some next
                   /\ (strip next = [] \/ bracket_delimited next)) ->
            loop_body lines (mkState i acc)
            = Ok (mkState (i + 1) (acc ++ [format_chord_only_line cur]))))
    /\ (forall next, spec_single_bracketed_token next -> bracket_delimited next).
Proof.
  intros lines i acc cur Hi Hcur NL.
  cut ((is_chord_only_line cur = false ->
        loop_body lines (mkState i acc) = Ok (mkState (i + 1) (acc ++ [cur])))
       /\ (is_chord_only_line cur = true ->
           (forall next,
               nth_error lines (Z.to_nat (i + 1)) = Some next ->
               strip next <> [] -> ~ bracket_delimited next ->
               loop_body lines (mkState i acc)
               = Ok (mkState (i + 2) (acc ++ [merge_chords_and_lyrics cur next])))
           /\ (nth_error lines (Z.to_nat (i + 1)) = None
               \/ (exists next,
                      nth_error lines (Z.to_nat (i + 1)) = Some next
                      /\ (strip next = [] \/ bracket_delimited next)) ->
               loop_body lines (mkState i acc)
               = Ok (mkState (i + 1) (acc ++ [format_chord_only_line cur]))))).
  { intros [A B]. split; [exact A |]. split; [exact B |].
    exact single_bracketed_delimited. }
  destruct (nth_error_split lines (Z.to_nat i) Hcur) as (prefix & rest & -> & Hl).
  replace i with (Z.of_nat (length prefix)) in * by lia. clear Hi Hl.
  rewrite loop_body_pass.
  assert (forall next, nth_error (prefix ++ cur :: rest)
                         (Z.to_nat (Z.of_nat (length prefix) + 1)) = Some next
                       <-> exists rest', rest = next :: rest') as Next.
  { intros next.
    replace (Z.to_nat (Z.of_nat (length prefix) + 1)) with (length prefix + 1)%nat by lia.
    rewrite nth_error_app2 by lia.
    replace (length prefix + 1 - length prefix)%nat with 1%nat by lia.
    cbn [nth_error]. destruct rest as [| x rest']; cbn [nth_error]; split.
    - discriminate.
    - intros (? & ?). discriminate.
    - intros E. injection E as ->. eauto.
    - intros (? & E). injection E as -> _. reflexivity. }
  assert (forall next rest', rest = next :: rest' ->
             mergeable next = true <-> strip next <> [] /\ ~ bracket_delimited next)
    as Merge.
  { intros next rest' ->. unfold mergeable.
    rewrite andb_true_iff, !negb_true_iff.
    rewrite Forall_forall in NL.
    assert (~ In newline next) as NLn
        by (apply NL; apply in_or_app; right; right; left; reflexivity).
    rewrite <- (section_header_spec _ NLn).
    destruct (strip next); cbn [is_empty];
      destruct (re_match_anchored false SECTION_HEADER_RE next);
      intuition congruence. }
  split.
  - intros C. rewrite C. cbn [andb]. destruct rest; reflexivity.
  - intros C. rewrite C. cbn [andb]. split.
    + intros next Hn Hs Hh. apply Next in Hn. destruct Hn as (rest' & ->).
      rewrite (proj2 (Merge next rest' eq_refl) (conj Hs Hh)). reflexivity.
    + intros [Hn | (next & Hn & Hx)].
      * destruct rest as [| x rest']; [reflexivity |].
        rewrite (proj2 (Next x) (ex_intro _ rest' eq_refl)) in Hn. discriminate Hn.
      * apply Next in Hn. destruct Hn as (rest' & ->).
        destruct (mergeable next) eqn:M; [| reflexivity].
        apply (Merge next rest' eq_refl) in M. tauto.
Qed.

Lemma pass_controller_step_witness :
  loop_body [s "Em   D"; s "She loves you"] (mkState 0 [])
  = Ok (mkState 2 [s "[Em]She l[D]oves you"]).
Proof.
  pose proof (pass_controller_step
                [s "Em   D"; s "She loves you"] 0 [] (s "Em   D")) as H.
  destruct H as [_ [H _]].
  - lia.
  - reflexivity.
  - repeat constructor; vm_compute; intuition discriminate.
  - destruct (H eq_refl) as [M _].
    apply (M (s "She loves you")).
    + reflexivity.
    + vm_compute. discriminate.
    + intros (body & E). vm_compute in E. discriminate E.
Defined.

(** C3.  [is_chord_token] accepts a token exactly when the whole trimmed
    token is: a root letter A-G in either case, an optional accidental, an
    optional quality keyword followed by digits, and an optional slash bass;
    and two tokens that differ only in letter case are classified alike. *)
Theorem chord_token_grammar :
  (forall token, is_chord_token token = true <-> spec_chord_grammar (strip token))
  /\ (forall t1 t2, same_up_to_case t1 t2 -> is_chord_token t1 = is_chord_token t2).
Proof.
  split.
  - intros token. rewrite is_chord_token_Lang. apply Lang_chord_grammar.
  - apply is_chord_token_case.
Qed.

Lemma chord_token_grammar_witness :
  is_chord_token (s "F#M7/bb") = is_chord_token (s "f#m7/BB")
  /\ spec_chord_grammar (strip (s " Am "))
  /\ ~ spec_chord_grammar (strip (s "Amx")).
Proof.
  destruct chord_token_grammar as [G C]. split; [| split].
  - apply C. vm_compute. reflexivity.
  - apply G. vm_compute. reflexivity.
  - intros H. apply G in H. vm_compute in H. discriminate H.
Defined.

(** C4, as the claim states it, fails: a lyric line may hold brackets of its
    own, which the merge keeps. *)
Lemma bracket_count_counterexample :
  ~ (is_chord_only_line (s "C") = true ->
     count "[" (merge_chords_and_lyrics (s "C") (s "x [y]"))
     = length (filter is_chord_token (split (s "C")))).
Proof. intros H. specialize (H eq_refl). vm_compute in H. discriminate H. Qed.

(** C4, amended.  When a chord-only line is merged with a lyric line, the
    output is never shorter than the lyric line, and it holds exactly as
    many more "[" and as many more "]" than the lyric line as there are
    chord tokens on the chord line; the bar separators and annotations of
    the chord line are the tokens that are not counted. *)
Theorem merge_bracket_count : forall chord_line lyric_line,
    is_chord_only_line chord_line = true ->
    let merged := merge_chords_and_lyrics chord_line lyric_line in
    let chords := length (filter is_chord_token (split chord_line)) in
    let others :=
      length (filter (fun tok => (is_parenthetical_annotation tok
                                  || is_bar_separator tok)%bool)
                     (split chord_line)) in
    (length lyric_line <= length merged)%nat
    /\ count "[" merged = (count "[" lyric_line + chords)%nat
    /\ count "]" merged = (count "]" lyric_line + chords)%nat
    /\ (chords + others)%nat = length (split chord_line).
Proof.
  intros chord_line lyric_line C merged chords others.
  destruct (merge_counts chord_line lyric_line) as (H1 & H2 & H3).
  repeat split; auto.
  apply allowed_partition. apply chord_only_tokens. exact C.
Qed.

Lemma merge_bracket_count_witness :
  count "[" (merge_chords_and_lyrics (s "| A  E | (x2)") (s "la [la] la")) = 3%nat.
Proof.
  destruct (merge_bracket_count (s "| A  E | (x2)") (s "la [la] la"))
    as (_ & H & _).
  - vm_compute. reflexivity.
  - rewrite H. vm_compute. reflexivity.
Defined.

(** C5, as the claim states it, fails: of two chords past the end of the
    lyric only the second is at the very end of the output. *)
Lemma clamp_counterexample :
  ~ (forall chord_line lyric_line p t,
        In (p, t) (chord_positions chord_line) ->
        len lyric_line < p ->
        exists pre,
          merge_chords_and_lyrics chord_line lyric_line = pre ++ bracketed t).
Proof.
  intros H. destruct (H (s "  C D") (s "a") 2 (s "C")) as (pre & E).
  - vm_compute. left. reflexivity.
  - vm_compute. reflexivity.
  - apply (f_equal (@rev ascii)) in E. rewrite rev_app_distr in E.
    vm_compute in E. discriminate E.
Qed.

(** C5, amended.  A chord token whose column exceeds the length of the lyric
    line has its bracketed form, whole, at the end of the merged output,
    followed only by the bracketed forms of the chord tokens that come after
    it on the chord line. *)
Theorem clamp_appends_at_end : forall chord_line lyric_line p t,
    In (p, t) (chord_positions chord_line) ->
    len lyric_line < p ->
    exists pre,
      merge_chords_and_lyrics chord_line lyric_line
      = pre ++ bracketed t
            ++ concat (brackets (filter (fun m => p <? fst m)
                                        (chord_positions chord_line))).
Proof.
  intros chord_line lyric_line p t I Hp.
  apply merge_late_suffix; [exact I | lia].
Qed.

Lemma clamp_appends_at_end_witness :
  exists pre,
    merge_chords_and_lyrics (s "  C D") (s "a")
    = pre ++ bracketed (s "C") ++ bracketed (s "D").
Proof.
  destruct (clamp_appends_at_end (s "  C D") (s "a") 2 (s "C")) as (pre & E).
  - vm_compute. left. reflexivity.
  - vm_compute. reflexivity.
  - exists pre. rewrite E. vm_compute. reflexivity.
Defined.

(** C6.  [format_chord_only_line] splits the line into its maximal runs,
    which together are the line; it emits them in order, a chord token as
    "[token]" and every other run as it is; whitespace runs, bar separators
    and annotations are never chord tokens, so they are emitted character
    for character, and the output is longer than the line by the two
    brackets of each chord token only. *)
Theorem format_preserves_separators : forall line,
    concat (runs line) = line
    /\ RunList (runs line)
    /\ format_chord_only_line line = concat (map spec_format_piece (runs line))
    /\ (forall tok,
           isspace tok = true \/ is_bar_separator tok = true
           \/ is_parenthetical_annotation tok = true ->
           format_piece tok = tok)
    /\ (forall tok, is_chord_token tok = true ->
                    format_piece tok = s "[" ++ tok ++ s "]")
    /\ length (format_chord_only_line line)
       = (length line + 2 * length (filter is_chord_token (split line)))%nat
    /\ format_chord_only_line (s "| B | A | E | E | x2")
       = s "| [B] | [A] | [E] | [E] | x2".
Proof.
  intros line.
  split; [apply concat_runs |].
  split; [apply runs_RunList |].
  split; [apply format_chord_only_line_spec |].
  split; [| split; [| split]].
  - intros tok H. rewrite format_piece_spec. unfold spec_format_piece.
    destruct (is_chord_token tok) eqn:C; [| reflexivity].
    destruct H as [H | [H | H]].
    + rewrite (isspace_not_chord _ H) in C. discriminate C.
    + rewrite (chord_not_bar _ C) in H. discriminate H.
    + rewrite (chord_not_paren _ C) in H. discriminate H.
  - intros tok C. rewrite format_piece_spec. unfold spec_format_piece.
    rewrite C. reflexivity.
  - rewrite format_chord_only_line_spec, format_length, concat_runs,
      chord_tokens_of_runs. reflexivity.
  - vm_compute. reflexivity.
Qed.

Lemma format_preserves_separators_witness :
  format_piece (s "(x2)") = s "(x2)" /\ format_piece (s "F#m7") = s "[F#m7]".
Proof.
  destruct (format_preserves_separators (s "A  E  (x2)")) as (_ & _ & _ & K & B & _).
  split.
  - apply K. right. right. vm_compute. reflexivity.
  - apply B. vm_compute. reflexivity.
Defined.

(** C7.  No token is of two kinds: of [is_chord_token], [is_bar_separator]
    and [is_parenthetical_annotation] at most one holds; in particular a
    token made of "|" only is not a chord token. *)
Theorem token_kinds_exclusive : forall token,
    (is_chord_token token && is_bar_separator token)%bool = false
    /\ (is_chord_token token && is_parenthetical_annotation token)%bool = false
    /\ (is_parenthetical_annotation token && is_bar_separator token)%bool = false
    /\ (forall n, is_chord_token (repeat "|"%char n) = false).
Proof.
  intros token. repeat split.
  - destruct (is_chord_token token) eqn:C; [| reflexivity].
    rewrite (chord_not_bar _ C). reflexivity.
  - destruct (is_chord_token token) eqn:C; [| reflexivity].
    rewrite (chord_not_paren _ C). reflexivity.
  - destruct (is_parenthetical_annotation token) eqn:P; [| reflexivity].
    rewrite (paren_not_bar _ P). reflexivity.
  - intros n. destruct (is_chord_token (repeat "|"%char n)) eqn:C; [| reflexivity].
    exfalso.
    apply (chord_token_no_char "|"%char (repeat "|"%char n));
      [reflexivity | reflexivity | exact C |].
    destruct n as [| n]; [discriminate C |]. left. reflexivity.
Qed.

(** C8.  [process_lines] is total and its output is a function of its input:
    for every list of lines the loop ends within [len(lines)] iterations
    without an [IndexError], with exactly one output, which has at most as
    many lines as the input. *)
Theorem process_lines_total : forall lines,
    (exists! output, process_lines lines = Ok output)
    /\ process_lines lines = Ok (pass lines)
    /\ (length (pass lines) <= length lines)%nat.
Proof.
  intros lines. rewrite process_lines_pass. split; [| split; [reflexivity |]].
  - exists (pass lines). split; [reflexivity |].
    intros output E. injection E as E. exact E.
  - apply pass_length.
Qed.

(** C9.  The merge only inserts: the merged line is the lyric line with the
    bracketed chord tokens cut in whole, in their order on the chord line,
    and with the lyric characters all kept, in order. *)
Theorem merge_only_inserts : forall chord_line lyric_line,
    Woven (map bracketed (filter is_chord_token (split chord_line)))
          lyric_line
          (merge_chords_and_lyrics chord_line lyric_line).
Proof.
  intros chord_line lyric_line.
  rewrite <- chord_positions_split, map_map.
  apply merge_Woven.
Qed.

(** C10.  [format_chord_only_line] is defined on every line: a token that is
    no chord, no bar separator and no annotation is copied unchanged, only
    chord-shaped tokens are changed, and a line without any is returned as
    it is. *)
Theorem format_total_on_any_line : forall line,
    (forall tok,
        is_chord_token tok = false ->
        is_parenthetical_annotation tok = false ->
        is_bar_separator tok = false ->
        format_piece tok = tok)
    /\ format_chord_only_line line
       = concat (map (fun tok => if is_chord_token tok then bracketed tok else tok)
                     (runs line))
    /\ (Forall (fun tok => is_chord_token tok = false) (split line) ->
        format_chord_only_line line = line)
    /\ format_chord_only_line (s "Hello Am world, x2") = s "Hello [Am] world, x2".
Proof.
  intros line. split; [| split; [| split]].
  - intros tok C _ _. rewrite format_piece_spec. unfold spec_format_piece.
    rewrite C. reflexivity.
  - apply format_chord_only_line_spec.
  - intros F. rewrite format_chord_only_line_spec, format_no_chords.
    + apply concat_runs.
    + apply Forall_forall. intros tok I.
      destruct (isspace tok) eqn:S; [apply isspace_not_chord; exact S |].
      rewrite Forall_forall in F. apply F. rewrite split_runs.
      apply filter_In. rewrite S. auto.
  - vm_compute. reflexivity.
Qed.

Lemma format_total_on_any_line_witness :
  format_chord_only_line (s "She loves  you (yeah)") = s "She loves  you (yeah)".
Proof.
  destruct (format_total_on_any_line (s "She loves  you (yeah)")) as (_ & _ & K & _).
  apply K. apply Forall_forall. intros tok I.
  assert (forallb (fun t => negb (is_chord_token t))
                  (split (s "She loves  you (yeah)")) = true) as B
      by (vm_compute; reflexivity).
  rewrite forallb_forall in B. apply B in I. apply negb_true_iff in I. exact I.
Defined.

(** ** Further properties of the code *)

(** *** The token classifiers *)

Lemma strip_idempotent : forall t, strip (strip t) = strip t.
Proof.
  intros t. destruct (strip t) as [| c mid] eqn:E; [reflexivity |].
  destruct (@exists_last _ (c :: mid)) as (front & d & El); [discriminate |].
  pose proof (strip_head t c mid E) as Hc.
  rewrite El in E. pose proof (strip_last t front d E) as Hd.
  pose proof (strip_between [] [] c mid front d) as H.
  cbn [app] in H. rewrite app_nil_r in H.
  apply H; auto; constructor.
Qed.

(** X1.  [is_bar_separator] holds exactly of the tokens that, once
    stripped, are one or more "|" and nothing else. *)
Theorem bar_separator_spec : forall token,
    is_bar_separator token = true
    <-> strip token <> [] /\ Forall (fun c => c = "|"%char) (strip token).
Proof.
  intros token. unfold is_bar_separator.
  rewrite re_match_anchored_strip. unfold BAR_SEPARATOR_RE, Plus.
  generalize (strip token). intros y. split.
  - intros (x1 & x2 & -> & (c & -> & A) & L).
    apply (Lang_Star_Atom false (Lit "|")) in L.
    split; [discriminate |].
    cbn [accepts] in *. apply Ascii.eqb_eq in A. subst c.
    constructor; [reflexivity |].
    eapply Forall_impl; [| exact L]. intros a Ha. apply Ascii.eqb_eq. exact Ha.
  - intros [N F]. destruct y as [| c y]; [congruence |].
    inversion F as [| ? ? Hc F']; subst.
    exists ["|"%char], y. repeat split.
    + exists "|"%char. auto.
    + apply (Lang_Star_Atom false (Lit "|")).
      eapply Forall_impl; [| exact F']. intros a ->. reflexivity.
Qed.

(** X2.  [is_parenthetical_annotation] holds exactly of the tokens that,
    once stripped, begin with "(" and end with a separate ")", with no
    newline between the two. *)
Theorem paren_annotation_spec : forall token,
    is_parenthetical_annotation token = true
    <-> exists body, strip token = s "(" ++ body ++ s ")" /\ ~ In newline body.
Proof.
  intros token. unfold is_parenthetical_annotation.
  rewrite re_match_anchored_strip. unfold PAREN_ANNOTATION_RE.
  generalize (strip token). intros y. cbn [Lang accepts]. split.
  - intros (x1 & x2 & -> & (c & -> & A) & body & x3 & -> & L & (d & -> & B)).
    apply Ascii.eqb_eq in A, B. subst c d.
    apply (Lang_Star_Atom false AnyChar) in L.
    exists body. split; [reflexivity |].
    intros I. rewrite Forall_forall in L. apply L in I.
    cbn [accepts] in I. rewrite Ascii.eqb_refl in I. discriminate I.
  - intros (body & -> & NB).
    exists (s "("), (body ++ s ")"). repeat split.
    + exists "("%char. auto.
    + exists body, (s ")"). repeat split.
      * apply (Lang_Star_Atom false AnyChar). apply Forall_forall.
        intros c I. cbn [accepts]. destruct (Ascii.eqb c newline) eqn:K; auto.
        apply Ascii.eqb_eq in K. subst. contradiction.
      * exists ")"%char. auto.
Qed.

Lemma is_chord_token_strip : forall t, is_chord_token (strip t) = is_chord_token t.
Proof.
  intros t. unfold is_chord_token. rewrite strip_idempotent.
  destruct t as [| c t]; [reflexivity |]. cbn [is_empty].
  destruct (strip (c :: t)) as [| d y] eqn:E; [| reflexivity].
  reflexivity.
Qed.

(** X3.  The three classifiers look at the stripped token only, and a token
    of whitespace only (or the empty token) is of none of the three kinds. *)
Theorem classifiers_ignore_padding : forall token,
    is_chord_token (strip token) = is_chord_token token
    /\ is_parenthetical_annotation (strip token) = is_parenthetical_annotation token
    /\ is_bar_separator (strip token) = is_bar_separator token
    /\ (all_space token -> allowed_token token = false).
Proof.
  intros token. split; [apply is_chord_token_strip |].
  split; [unfold is_parenthetical_annotation; rewrite strip_idempotent; reflexivity |].
  split; [unfold is_bar_separator; rewrite strip_idempotent; reflexivity |].
  intros F. unfold allowed_token.
  destruct (is_chord_token token) eqn:C.
  { apply chord_token_head in C. destruct C as (c & y & E & _).
    rewrite (strip_all_space _ F) in E. discriminate E. }
  destruct (is_parenthetical_annotation token) eqn:P.
  { apply paren_annotation_head in P. destruct P as (y & E).
    rewrite (strip_all_space _ F) in E. discriminate E. }
  destruct (is_bar_separator token) eqn:B; [| reflexivity].
  apply bar_separator_head in B. destruct B as (y & E).
  rewrite (strip_all_space _ F) in E. discriminate E.
Qed.

Lemma classifiers_ignore_padding_witness :
  allowed_token (s "   ") = false.
Proof.
  destruct (classifiers_ignore_padding (s "   ")) as (_ & _ & _ & K).
  apply K. repeat constructor.
Defined.

(** *** Chord-only lines *)

Lemma all_tokens_allowed_forallb : forall tokens,
    all_tokens_allowed tokens = forallb allowed_token tokens.
Proof.
  induction tokens as [| tok rest IH]; cbn [all_tokens_allowed forallb]; auto.
  fold (allowed_token tok). rewrite IH. destruct (allowed_token tok); reflexivity.
Qed.

(** X4.  A line is chord-only exactly when it has at least one token and
    every token of it is a chord, an annotation or a bar separator. *)
Theorem chord_only_line_spec : forall line,
    is_chord_only_line line = true
    <-> split line <> []
        /\ Forall (fun tok => allowed_token tok = true) (split line).
Proof.
  intros line. unfold is_chord_only_line. rewrite filter_nonempty_split.
  rewrite all_tokens_allowed_forallb.
  destruct (split line) as [| tok rest]; cbn [is_empty].
  - split; [discriminate | intros [N _]; congruence].
  - rewrite forallb_forall, Forall_forall. split.
    + intros H. split; [discriminate | exact H].
    + intros [_ H]. exact H.
Qed.

Lemma split_all_space : forall line, all_space line -> split line = [].
Proof.
  intros line F. rewrite split_runs. destruct line as [| c line]; [reflexivity |].
  rewrite (runs_homog true (c :: line)); [| discriminate | exact F].
  cbn [filter]. rewrite (isspace_homog true (c :: line)); [reflexivity | discriminate | exact F].
Qed.

(** X5.  An empty line and a line of whitespace only are not chord-only, so
    the pass hands them on unchanged. *)
Theorem blank_line_not_chord_only : forall line rest,
    all_space line ->
    is_chord_only_line line = false
    /\ process_lines (line :: rest)
       = match process_lines rest with
         | Ok converted => Ok (line :: converted)
         | IndexError => IndexError
         | OutOfFuel => OutOfFuel
         end.
Proof.
  intros line rest F.
  assert (is_chord_only_line line = false) as C.
  { unfold is_chord_only_line. rewrite filter_nonempty_split, (split_all_space _ F).
    reflexivity. }
  split; [exact C |].
  rewrite !process_lines_pass, pass_cons, C. reflexivity.
Qed.

Lemma blank_line_not_chord_only_witness :
  process_lines [s "  "; s "C"] = Ok [s "  "; s "[C]"].
Proof.
  destruct (blank_line_not_chord_only (s "  ") [s "C"]) as [_ H].
  - repeat constructor.
  - rewrite H. vm_compute. reflexivity.
Defined.

(** *** The merge *)

Lemma chord_positions_nil : forall chord_line,
    filter is_chord_token (split chord_line) = [] ->
    chord_positions chord_line = [].
Proof.
  intros chord_line H. rewrite <- chord_positions_split in H.
  destruct (chord_positions chord_line); [reflexivity | discriminate H].
Qed.

(** X6.  Merging a chord line that holds no chord token (bar separators and
    annotations only) returns the lyric line unchanged: in the pass such a
    line above a lyric line leaves no trace in the output. *)
Theorem merge_without_chords : forall chord_line lyric_line rest,
    filter is_chord_token (split chord_line) = [] ->
    merge_chords_and_lyrics chord_line lyric_line = lyric_line
    /\ (is_chord_only_line chord_line = true -> mergeable lyric_line = true ->
        pass (chord_line :: lyric_line :: rest) = lyric_line :: pass rest).
Proof.
  intros chord_line lyric_line rest H.
  assert (merge_chords_and_lyrics chord_line lyric_line = lyric_line) as M.
  { unfold merge_chords_and_lyrics. rewrite (chord_positions_nil _ H). reflexivity. }
  split; [exact M |].
  intros C E. rewrite pass_cons, C, E, M. reflexivity.
Qed.

Lemma merge_without_chords_witness :
  process_lines [s "| (x2) |"; s "la la"; s "end"] = Ok [s "la la"; s "end"].
Proof.
  rewrite process_lines_pass.
  destruct (merge_without_chords (s "| (x2) |") (s "la la") [s "end"]) as [_ H].
  - vm_compute. reflexivity.
  - rewrite H; vm_compute; reflexivity.
Defined.

(** X7.  Merged with an empty lyric line, the chord tokens are all kept:
    the result is their bracketed forms one after the other, in order. *)
Theorem merge_empty_lyric : forall chord_line,
    merge_chords_and_lyrics chord_line []
    = concat (map bracketed (filter is_chord_token (split chord_line))).
Proof.
  intros chord_line. rewrite merge_weave, weave_all_late.
  - cbn [app]. unfold brackets.
    rewrite <- chord_positions_split, map_map. reflexivity.
  - eapply Forall_impl; [| apply chord_positions_nonneg].
    intros m H. cbn beta in *. unfold len. cbn [length]. lia.
Qed.

Lemma length_concat_brackets : forall toks,
    len (concat (brackets toks)) = inserted_length toks.
Proof.
  induction toks as [| [p t] toks IH]; cbn [brackets map concat inserted_length fold_right snd].
  - reflexivity.
  - fold (brackets toks). fold (inserted_length toks). rewrite <- IH.
    unfold len. rewrite length_app, length_bracketed. lia.
Qed.

(** X8.  The merged line is longer than the lyric line by exactly the
    lengths of the chord tokens plus two brackets for each. *)
Theorem merge_length : forall chord_line lyric_line,
    len (merge_chords_and_lyrics chord_line lyric_line)
    = len lyric_line + inserted_length (chord_positions chord_line).
Proof.
  intros chord_line lyric_line.
  rewrite <- length_concat_brackets. unfold len.
  rewrite (Woven_length _ _ _ (merge_Woven chord_line lyric_line)). lia.
Qed.

Lemma filter_none : forall (A : Type) (f : A -> bool) l,
    Forall (fun a => f a = false) l -> filter f l = [].
Proof.
  intros A f l F. induction F as [| a l Ha F IH]; cbn [filter]; auto.
  rewrite Ha. exact IH.
Qed.

Lemma sorted_split_both : forall l a,
    StronglySorted by_start l -> In a l ->
    l = filter (fun m => fst m <? fst a) l
          ++ a :: filter (fun m => fst a <? fst m) l.
Proof.
  intros l a S. induction S as [| x l S IH F]; intros I; cbn [In] in I.
  - contradiction.
  - rewrite Forall_forall in F. cbn [filter]. destruct I as [-> | I].
    + rewrite Z.ltb_irrefl.
      rewrite filter_none.
      2:{ apply Forall_forall. intros m Im. apply Z.ltb_ge.
          pose proof (F m Im) as Lt. unfold by_start in Lt. lia. }
      cbn [app]. f_equal. symmetry. apply filter_all.
      apply Forall_forall. intros m Im. apply Z.ltb_lt. apply F. exact Im.
    + pose proof (F a I) as Lt. unfold by_start in Lt.
      destruct (fst x <? fst a) eqn:K1; [| apply Z.ltb_ge in K1; lia].
      destruct (fst a <? fst x) eqn:K2; [apply Z.ltb_lt in K2; lia |].
      cbn [app]. f_equal. apply IH. exact I.
Qed.

Lemma weave_split : forall before from rest p t after,
    Forall (fun m => fst m <= p) before ->
    let k := Z.to_nat (Z.min (p - from) (len rest)) in
    weave from (before ++ (p, t) :: after) rest
    = weave from before (firstn k rest)
        ++ bracketed t ++ weave (from + Z.of_nat k) after (skipn k rest).
Proof.
  induction before as [| [q u] before IH]; intros from rest p t after F k.
  - cbn [app weave]. reflexivity.
  - inversion F as [| ? ? Hq F']; subst. cbn [fst] in Hq.
    cbn [app weave].
    set (k1 := Z.to_nat (Z.min (q - from) (len rest))).
    assert (k1 <= k)%nat as Hk by (unfold k1, k, len; lia).
    assert (k <= length rest)%nat as HkL by (unfold k, len; lia).
    assert (Z.to_nat (Z.min (q - from) (len (firstn k rest))) = k1) as ->.
    { unfold len. rewrite length_firstn. unfold k1, k, len. lia. }
    rewrite firstn_firstn, (Nat.min_l k1 k) by exact Hk.
    rewrite <- !app_assoc. f_equal. f_equal.
    rewrite (IH (from + Z.of_nat k1) (skipn k1 rest) p t after F').
    assert (Z.to_nat (Z.min (p - (from + Z.of_nat k1)) (len (skipn k1 rest)))
            = (k - k1)%nat) as ->.
    { unfold len. rewrite length_skipn. unfold k, k1, len in *. lia. }
    rewrite skipn_firstn_comm, skipn_skipn.
    replace (k - k1 + k1)%nat with k by lia.
    replace (from + Z.of_nat k1 + Z.of_nat (k - k1)) with (from + Z.of_nat k) by lia.
    reflexivity.
Qed.

(** X9.  Each chord is anchored at its column: the bracketed form of a chord
    token at column [p] stands between the first [min(p, len(lyric))]
    characters of the lyric, which hold the earlier chords, and the rest of
    the lyric, which holds the later ones. *)
Theorem merge_anchors_columns : forall chord_line lyric_line p t,
    In (p, t) (chord_positions chord_line) ->
    let k := Z.to_nat (Z.min p (len lyric_line)) in
    let cps := chord_positions chord_line in
    exists pre post,
      merge_chords_and_lyrics chord_line lyric_line = pre ++ bracketed t ++ post
      /\ Woven (brackets (filter (fun m => fst m <? p) cps))
               (firstn k lyric_line) pre
      /\ Woven (brackets (filter (fun m => p <? fst m) cps))
               (skipn k lyric_line) post.
Proof.
  intros chord_line lyric_line p t I k cps.
  pose proof (sorted_split_both _ _ (chord_positions_sorted chord_line) I) as E.
  cbn [fst] in E. fold cps in E.
  set (before := filter (fun m => fst m <? p) cps) in *.
  set (after := filter (fun m => p <? fst m) cps) in *.
  exists (weave 0 before (firstn k lyric_line)),
         (weave (0 + Z.of_nat k) after (skipn k lyric_line)).
  split; [| split; apply weave_Woven].
  rewrite merge_weave. fold cps. rewrite E at 1.
  replace k with (Z.to_nat (Z.min (p - 0) (len lyric_line)))
    by (unfold k; f_equal; lia).
  apply weave_split.
  apply Forall_forall. intros m Im. unfold before in Im.
  apply filter_In in Im. destruct Im as [_ Im]. apply Z.ltb_lt in Im. lia.
Qed.

Lemma merge_anchors_columns_witness :
  exists pre post,
    merge_chords_and_lyrics (s "Em   D") (s "She loves you")
    = pre ++ s "[D]" ++ post
    /\ Woven [s "[Em]"] (s "She l") pre
    /\ Woven [] (s "oves you") post.
Proof.
  destruct (merge_anchors_columns (s "Em   D") (s "She loves you") 5 (s "D"))
    as (pre & post & E & W1 & W2).
  - vm_compute. right. left. reflexivity.
  - exists pre, post. repeat split; assumption.
Defined.

(** *** The standalone formatter *)

Lemma without_brackets_app : forall x y,
    without_brackets (x ++ y) = without_brackets x ++ without_brackets y.
Proof. intros. unfold without_brackets. apply filter_app. Qed.

Lemma without_brackets_piece : forall tok,
    without_brackets (spec_format_piece tok) = without_brackets tok.
Proof.
  intros tok. unfold spec_format_piece.
  destruct (is_chord_token tok); [| reflexivity].
  rewrite !without_brackets_app. cbn. rewrite app_nil_r. reflexivity.
Qed.

Lemma without_brackets_format : forall line,
    without_brackets (format_chord_only_line line) = without_brackets line.
Proof.
  intros line. rewrite format_chord_only_line_spec.
  rewrite <- (concat_runs line) at 2.
  induction (runs line) as [| r rs IH]; cbn [map concat]; [reflexivity |].
  rewrite !without_brackets_app, without_brackets_piece, IH. reflexivity.
Qed.

(** X10.  The formatter adds brackets and nothing else: with the two bracket
    characters left out, its output is the line it was given. *)
Theorem format_adds_only_brackets : forall line,
    without_brackets (format_chord_only_line line) = without_brackets line.
Proof. exact without_brackets_format. Qed.

Lemma runs_unique : forall rs, RunList rs -> runs (concat rs) = rs.
Proof.
  intros rs H. induction H as [| b r N Hb | b r r' rs N Hb N' Hb' T IH].
  - reflexivity.
  - cbn [concat]. rewrite app_nil_r. apply (runs_homog b); assumption.
  - cbn [concat]. rewrite runs_app.
    + rewrite (runs_homog b r N Hb). cbn [concat] in IH. rewrite IH. reflexivity.
    + intros a' c d b' Ea Eb.
      rewrite (homog_last b r a' c Hb Ea).
      destruct r' as [| e r']; [congruence |].
      cbn [app] in Eb. injection Eb as <- _.
      rewrite (homog_head _ _ _ Hb'). destruct b; discriminate.
Qed.

Lemma format_piece_homog : forall b r,
    r <> [] -> homog b r ->
    spec_format_piece r <> [] /\ homog b (spec_format_piece r).
Proof.
  intros b r N H. unfold spec_format_piece.
  destruct (is_chord_token r) eqn:C; [| auto].
  split; [discriminate |].
  assert (b = false) as ->.
  { destruct b; [| reflexivity].
    rewrite (isspace_not_chord r) in C; [discriminate C |].
    apply (isspace_homog true); assumption. }
  unfold homog in *. cbn [s list_ascii_of_string app].
  constructor; [reflexivity |].
  apply Forall_app. split; [exact H | repeat constructor].
Qed.

Lemma RunList_format : forall rs,
    RunList rs -> RunList (map spec_format_piece rs).
Proof.
  intros rs H. induction H as [| b r N Hb | b r r' rs N Hb N' Hb' T IH];
    cbn [map].
  - constructor.
  - destruct (format_piece_homog b r N Hb). apply RunList_one with (b := b); auto.
  - destruct (format_piece_homog b r N Hb).
    destruct (format_piece_homog (negb b) r' N' Hb').
    apply RunList_cons with (b := b); auto.
Qed.

Lemma format_runs : forall line,
    runs (format_chord_only_line line) = map spec_format_piece (runs line).
Proof.
  intros line. rewrite format_chord_only_line_spec.
  apply runs_unique, RunList_format, runs_RunList.
Qed.

Lemma isspace_format_piece : forall r, isspace (spec_format_piece r) = isspace r.
Proof.
  intros r. unfold spec_format_piece. destruct (is_chord_token r) eqn:C; auto.
  destruct (isspace r) eqn:S; [rewrite (isspace_not_chord r S) in C; discriminate C |].
  reflexivity.
Qed.

(** X11.  The formatter keeps the layout of the line: the output has the
    same whitespace runs in the same places, and its tokens are the tokens
    of the line, each chord token wrapped in brackets. *)
Theorem format_keeps_layout : forall line,
    runs (format_chord_only_line line) = map spec_format_piece (runs line)
    /\ split (format_chord_only_line line) = map spec_format_piece (split line).
Proof.
  intros line. split; [apply format_runs |].
  rewrite !split_runs, format_runs.
  induction (runs line) as [| r rs IH]; cbn [map filter]; [reflexivity |].
  rewrite isspace_format_piece.
  destruct (negb (isspace r)); cbn [map]; rewrite IH; reflexivity.
Qed.

Lemma bracketed_not_chord : forall tok, is_chord_token (bracketed tok) = false.
Proof.
  intros tok. destruct (is_chord_token (bracketed tok)) eqn:C; [| reflexivity].
  apply chord_token_no_open in C. destruct C. left. reflexivity.
Qed.

Lemma format_piece_idempotent : forall tok,
    spec_format_piece (spec_format_piece tok) = spec_format_piece tok.
Proof.
  intros tok. destruct (is_chord_token tok) eqn:C.
  - assert (spec_format_piece tok = bracketed tok) as ->
        by (unfold spec_format_piece; rewrite C; reflexivity).
    unfold spec_format_piece. rewrite bracketed_not_chord. reflexivity.
  - assert (spec_format_piece tok = tok) as E
        by (unfold spec_format_piece; rewrite C; reflexivity).
    rewrite !E. reflexivity.
Qed.

(** X12.  Formatting twice is formatting once: a bracketed chord is no
    longer a chord token, so a second run leaves the line as it is. *)
Theorem format_idempotent : forall line,
    format_chord_only_line (format_chord_only_line line)
    = format_chord_only_line line.
Proof.
  intros line.
  rewrite (format_chord_only_line_spec (format_chord_only_line line)).
  rewrite format_runs, map_map, (format_chord_only_line_spec line).
  f_equal. apply map_ext. apply format_piece_idempotent.
Qed.

(** *** The pass *)

(** X13.  A text without any chord-only line is returned as it is. *)
Theorem pass_without_chord_lines : forall lines,
    Forall (fun line => is_chord_only_line line = false) lines ->
    process_lines lines = Ok lines.
Proof.
  intros lines F. rewrite process_lines_pass. f_equal.
  induction F as [| line rest H F IH]; [reflexivity |].
  rewrite pass_cons, H, IH. reflexivity.
Qed.

Lemma pass_without_chord_lines_witness :
  process_lines [s "[Chorus]"; s "She loves you"; []]
  = Ok [s "[Chorus]"; s "She loves you"; []].
Proof.
  apply pass_without_chord_lines. repeat constructor.
Defined.

Lemma pass_length_lower : forall n lines,
    (length lines <= n)%nat -> (length lines <= 2 * length (pass lines))%nat.
Proof.
  induction n as [| n IH]; intros lines Hn.
  - destruct lines; [cbn; lia | cbn [length] in Hn; lia].
  - destruct lines as [| cur rest]; [cbn; lia |].
    rewrite pass_cons. cbn [length] in Hn.
    assert (length rest <= 2 * length (pass rest))%nat as Hrest by (apply IH; lia).
    destruct (is_chord_only_line cur); [| cbn [length]; lia].
    destruct rest as [| next rest']; [cbn [length] in *; lia |].
    destruct (mergeable next); [| cbn [length] in *; lia].
    assert (length rest' <= 2 * length (pass rest'))%nat
      by (apply IH; cbn [length] in Hn; lia).
    cbn [length]. lia.
Qed.

(** X14.  The pass drops at most every second line: the output has at least
    half as many lines as the input (and none only for an empty input). *)
Theorem pass_keeps_half : forall lines,
    exists converted,
      process_lines lines = Ok converted
      /\ (length lines <= 2 * length converted)%nat
      /\ (converted = [] <-> lines = []).
Proof.
  intros lines. exists (pass lines). split; [apply process_lines_pass |].
  pose proof (pass_length_lower (length lines) lines (le_n _)) as L.
  split; [exact L |]. split.
  - intros E. rewrite E in L. destruct lines; [reflexivity | cbn [length] in L; lia].
  - intros ->. reflexivity.
Qed.

Lemma pass_app_bounded : forall n a x b,
    (length a <= n)%nat ->
    is_chord_only_line x = false ->
    pass ((a ++ [x]) ++ b) = pass (a ++ [x]) ++ pass b.
Proof.
  induction n as [| n IH]; intros a x b Hn C.
  - destruct a; [| cbn [length] in Hn; lia].
    cbn [app]. rewrite !pass_cons, C. reflexivity.
  - destruct a as [| c a'].
    + cbn [app]. rewrite !pass_cons, C. reflexivity.
    + cbn [length] in Hn. cbn [app]. rewrite !(pass_cons c).
      assert (pass ((a' ++ [x]) ++ b) = pass (a' ++ [x]) ++ pass b) as Hrest
          by (apply IH; [lia | exact C]).
      destruct (is_chord_only_line c); [| rewrite Hrest; reflexivity].
      destruct a' as [| d a''].
      * cbn [app] in *. destruct (mergeable x); [reflexivity |].
        rewrite Hrest. reflexivity.
      * cbn [app] in *. destruct (mergeable d).
        -- rewrite (IH a'' x b); [reflexivity | cbn [length] in Hn; lia | exact C].
        -- rewrite Hrest. reflexivity.
Qed.

(** X15.  A line that is not chord-only closes a block: what comes after it
    is converted as if it stood alone, so blocks of a chart that end in a
    lyric line, a header or a blank line are converted independently. *)
Theorem pass_blocks_independent : forall a x b,
    is_chord_only_line x = false ->
    process_lines ((a ++ [x]) ++ b) = Ok (pass (a ++ [x]) ++ pass b).
Proof.
  intros a x b C. rewrite process_lines_pass. f_equal.
  apply (pass_app_bounded (length a)); [lia | exact C].
Qed.

Lemma pass_blocks_independent_witness :
  process_lines (([s "Em"] ++ [s "la"]) ++ [s "C"; s "da"])
  = Ok ([s "[Em]la"] ++ [s "[C]da"]).
Proof.
  rewrite (pass_blocks_independent [s "Em"] (s "la") [s "C"; s "da"]).
  - vm_compute. reflexivity.
  - vm_compute. reflexivity.
Defined.

Lemma Woven_In : forall c bs l m,
    Woven bs l m -> In c m -> In c l \/ In c (concat bs).
Proof.
  intros c bs l m W. induction W; cbn [concat In]; intros I.
  - auto.
  - destruct I as [I | I]; [auto |]. destruct (IHW I); auto.
  - apply in_app_or in I. destruct I as [I | I].
    + right. apply in_or_app. auto.
    + destruct (IHW I); auto. right. apply in_or_app. auto.
Qed.

Lemma In_bracketed : forall c t,
    In c (bracketed t) -> c = "["%char \/ c = "]"%char \/ In c t.
Proof.
  intros c t I. unfold bracketed in I. cbn [s list_ascii_of_string app In] in I.
  destruct I as [I | I]; [auto |].
  apply in_app_or in I. destruct I as [I | [I | []]]; auto.
Qed.

Lemma In_brackets : forall c toks,
    In c (concat (brackets toks)) ->
    c = "["%char \/ c = "]"%char \/ exists p t, In (p, t) toks /\ In c t.
Proof.
  intros c. induction toks as [| [p t] toks IH]; cbn [brackets map concat snd];
    intros I; [contradiction |].
  apply in_app_or in I. destruct I as [I | I].
  - apply In_bracketed in I. destruct I as [I | [I | I]]; auto.
    right. right. exists p, t. split; [left; reflexivity | exact I].
  - destruct (IH I) as [H | [H | (q & u & Hq & Hu)]]; auto.
    right. right. exists q, u. split; [right; exact Hq | exact Hu].
Qed.

Lemma chord_position_chars : forall line p t c,
    In (p, t) (chord_positions line) -> In c t -> In c line.
Proof.
  intros line p t c I Ic. rewrite chord_positions_filter in I.
  apply filter_In in I. destruct I as [I _].
  apply finditer_nonspace_maximal in I.
  destruct I as (_ & _ & pre & post & -> & _).
  apply in_or_app. right. apply in_or_app. left. exact Ic.
Qed.

Lemma merge_chars : forall chord_line lyric_line c,
    In c (merge_chords_and_lyrics chord_line lyric_line) ->
    c = "["%char \/ c = "]"%char \/ In c chord_line \/ In c lyric_line.
Proof.
  intros chord_line lyric_line c I.
  apply (Woven_In c _ _ _ (merge_Woven chord_line lyric_line)) in I.
  destruct I as [I | I]; [auto |].
  apply In_brackets in I. destruct I as [I | [I | (p & t & Hp & Ht)]]; auto.
  right. right. left. eapply chord_position_chars; eauto.
Qed.

Lemma format_chars : forall line c,
    In c (format_chord_only_line line) ->
    c = "["%char \/ c = "]"%char \/ In c line.
Proof.
  intros line c I.
  destruct (Ascii.eqb c "[") eqn:E1; [apply Ascii.eqb_eq in E1; auto |].
  destruct (Ascii.eqb c "]") eqn:E2; [apply Ascii.eqb_eq in E2; auto |].
  right. right.
  assert (In c (without_brackets (format_chord_only_line line))) as J.
  { unfold without_brackets. apply filter_In. rewrite E1, E2. auto. }
  rewrite without_brackets_format in J.
  unfold without_brackets in J. apply filter_In in J. tauto.
Qed.

Lemma pass_chars_bounded : forall n lines converted c,
    (length lines <= n)%nat ->
    In converted (pass lines) -> In c converted ->
    c = "["%char \/ c = "]"%char \/ exists line, In line lines /\ In c line.
Proof.
  induction n as [| n IH]; intros lines converted c Hn I Ic.
  - destruct lines; [contradiction | cbn [length] in Hn; lia].
  - destruct lines as [| cur rest]; [contradiction |].
    cbn [length] in Hn. rewrite pass_cons in I.
    assert (In converted (pass rest) ->
            c = "["%char \/ c = "]"%char
            \/ exists line, In line (cur :: rest) /\ In c line) as Rest.
    { intros J. destruct (IH rest converted c) as [H | [H | (l & Hl & Hc)]];
        auto; [lia |].
      right. right. exists l. split; [right; exact Hl | exact Hc]. }
    assert (In c (format_chord_only_line cur) ->
            c = "["%char \/ c = "]"%char
            \/ exists line, In line (cur :: rest) /\ In c line) as Fmt.
    { intros J. apply format_chars in J. destruct J as [J | [J | J]]; auto.
      right. right. exists cur. split; [left; reflexivity | exact J]. }
    destruct (is_chord_only_line cur).
    + destruct rest as [| next rest'].
      * destruct I as [<- | I]; [auto | contradiction].
      * destruct (mergeable next).
        -- destruct I as [<- | I].
           ++ apply merge_chars in Ic. destruct Ic as [H | [H | [H | H]]]; auto.
              ** right. right. exists cur. split; [left; reflexivity | exact H].
              ** right. right. exists next.
                 split; [right; left; reflexivity | exact H].
           ++ destruct (IH rest' converted c) as [H | [H | (l & Hl & Hc)]];
                auto; [cbn [length] in Hn; lia |].
              right. right. exists l. split; [right; right; exact Hl | exact Hc].
        -- destruct I as [<- | I]; auto.
    + destruct I as [<- | I]; auto.
      right. right. exists cur. split; [left; reflexivity | exact Ic].
Qed.

(** X16.  The pass brings in no character of its own but the two brackets:
    every other character of an output line is a character of some input
    line. *)
Theorem pass_adds_only_brackets : forall lines converted c,
    In converted (pass lines) -> In c converted ->
    c = "["%char \/ c = "]"%char \/ exists line, In line lines /\ In c line.
Proof.
  intros lines converted c. apply (pass_chars_bounded (length lines)). lia.
Qed.

Lemma pass_adds_only_brackets_witness :
  "y"%char = "["%char \/ "y"%char = "]"%char
  \/ exists line, In line [s "Em"; s "you"] /\ In "y"%char line.
Proof.
  apply (pass_adds_only_brackets [s "Em"; s "you"] (s "[Em]you") "y"%char).
  - vm_compute. left. reflexivity.
  - vm_compute. tauto.
Defined.

(** *** Reading the input and writing the output *)

Lemma splitlines_cons : forall c x',
    splitlines (c :: x')
    = if is_linebreak c then
        [] :: match x' with
              | d :: x'' =>
                  if (Ascii.eqb c carriage_return && Ascii.eqb d newline)%bool
                  then splitlines x''
                  else splitlines x'
              | [] => []
              end
      else
        match splitlines x' with
        | [] => [[c]]
        | l :: ls => (c :: l) :: ls
        end.
Proof. reflexivity. Qed.

Lemma splitlines_clean_bounded : forall n raw,
    (length raw <= n)%nat -> Forall no_linebreak (splitlines raw).
Proof.
  induction n as [| n IH]; intros raw Hn.
  - destruct raw; [constructor | cbn [length] in Hn; lia].
  - destruct raw as [| c x']; [constructor |].
    cbn [length] in Hn. rewrite splitlines_cons.
    assert (Forall no_linebreak (splitlines x')) as Hx by (apply IH; lia).
    destruct (is_linebreak c) eqn:L.
    + constructor; [constructor |].
      destruct x' as [| d x'']; [constructor |].
      destruct (Ascii.eqb c carriage_return && Ascii.eqb d newline)%bool; [| exact Hx].
      apply IH. cbn [length] in Hn. lia.
    + destruct (splitlines x') as [| l ls]; [repeat constructor; exact L |].
      inversion Hx; subst. constructor; [constructor |]; assumption.
Qed.

Lemma linebreak_newline : is_linebreak newline = true.
Proof. reflexivity. Qed.

(** X17.  No line that [main] hands to [process_lines] holds a line
    boundary: the lines of [splitlines] are free of LF, CR and the other
    boundary characters, in particular of the newline that the header
    pattern of the pass treats specially. *)
Theorem splitlines_lines_clean : forall raw,
    Forall no_linebreak (splitlines raw)
    /\ Forall (fun line => ~ In newline line) (splitlines raw).
Proof.
  intros raw.
  pose proof (splitlines_clean_bounded (length raw) raw (le_n _)) as H.
  split; [exact H |].
  eapply Forall_impl; [| exact H]. intros line F I.
  unfold no_linebreak in F. rewrite Forall_forall in F. apply F in I.
  rewrite linebreak_newline in I. discriminate I.
Qed.

Lemma splitlines_line : forall l rest,
    no_linebreak l -> splitlines (l ++ newline :: rest) = l :: splitlines rest.
Proof.
  intros l rest F. induction F as [| c l Hc F IH]; cbn [app].
  - rewrite splitlines_cons, linebreak_newline.
    destruct rest; reflexivity.
  - rewrite splitlines_cons, Hc, IH. reflexivity.
Qed.

Lemma file_content_cons : forall l rest,
    file_content (l :: rest)
    = l ++ newline :: match rest with [] => [] | _ :: _ => file_content rest end.
Proof.
  intros l rest. unfold file_content. cbn [join].
  destruct rest as [| l2 rest']; [reflexivity |].
  rewrite <- !app_assoc. reflexivity.
Qed.

Lemma splitlines_file_content : forall lines,
    lines <> [] -> Forall no_linebreak lines ->
    splitlines (file_content lines) = lines.
Proof.
  intros lines N F. induction F as [| l rest Hl F IH]; [congruence |].
  rewrite file_content_cons, (splitlines_line _ _ Hl).
  destruct rest as [| l2 rest']; [reflexivity |].
  rewrite IH by discriminate. reflexivity.
Qed.

(** X18.  What [write_output_file] writes reads back as the lines written:
    for a non-empty list of lines without line boundaries, splitting the
    written content gives the list again.  For the empty list it does not:
    the content is a single newline, which reads back as one empty line. *)
Theorem written_content_reads_back :
  (forall lines, lines <> [] -> Forall no_linebreak lines ->
                 splitlines (file_content lines) = lines)
  /\ file_content [] = [newline]
  /\ splitlines (file_content []) = [[]].
Proof.
  split; [exact splitlines_file_content |]. split; reflexivity.
Qed.

Lemma written_content_reads_back_witness :
  splitlines (file_content [s "[Em]la"; []; s "end"]) = [s "[Em]la"; []; s "end"].
Proof.
  destruct written_content_reads_back as [K _]. apply K.
  - discriminate.
  - repeat constructor.
Defined.

Lemma splitlines_nonempty : forall raw, raw <> [] -> splitlines raw <> [].
Proof.
  intros [| c x'] N; [congruence |]. rewrite splitlines_cons.
  destruct (is_linebreak c); [discriminate |].
  destruct (splitlines x'); discriminate.
Qed.

Lemma pass_clean : forall lines,
    Forall no_linebreak lines -> Forall no_linebreak (pass lines).
Proof.
  intros lines F. apply Forall_forall. intros converted I.
  apply Forall_forall. intros c Ic.
  destruct (is_linebreak c) eqn:L; [| reflexivity].
  destruct (pass_chars_bounded (length lines) lines converted c (le_n _) I Ic)
    as [-> | [-> | (line & Hl & Hc)]]; try discriminate L.
  rewrite Forall_forall in F. apply F in Hl.
  unfold no_linebreak in Hl. rewrite Forall_forall in Hl. apply Hl in Hc.
  congruence.
Qed.

(** X19.  From the input text to the output file: for every input text
    [main] gets a converted list of lines and writes it joined by newlines;
    when the input is not empty, the written text reads back, line by line,
    as exactly the converted lines. *)
Theorem main_output_reads_back : forall raw,
    exists converted,
      process_lines (splitlines raw) = Ok converted
      /\ main_content raw = Ok (file_content converted)
      /\ (raw <> [] -> splitlines (file_content converted) = converted).
Proof.
  intros raw. exists (pass (splitlines raw)).
  unfold main_content. rewrite process_lines_pass.
  split; [reflexivity |]. split; [reflexivity |].
  intros N. apply splitlines_file_content.
  - pose proof (pass_length_lower _ (splitlines raw) (le_n _)) as L.
    pose proof (splitlines_nonempty raw N) as Ns.
    intros E. rewrite E in L. destruct (splitlines raw); [congruence |].
    cbn [length] in L. lia.
  - apply pass_clean. apply (splitlines_clean_bounded (length raw)). lia.
Qed.

(** *** Choosing the output name *)

Lemma first_free_name_least : forall path_exists base_name timestamp ext n counter fuel,
    (forall j, counter <= j < counter + Z.of_nat n ->
               path_exists (candidate_name base_name timestamp ext j) = true) ->
    path_exists (candidate_name base_name timestamp ext (counter + Z.of_nat n)) = false ->
    (n < fuel)%nat ->
    first_free_name fuel path_exists base_name timestamp ext counter
    = Ok (candidate_name base_name timestamp ext (counter + Z.of_nat n)).
Proof.
  intros path_exists base_name timestamp ext.
  induction n as [| n IH]; intros counter fuel Taken Free Hf;
    (destruct fuel as [| fuel]; [lia |]); cbn [first_free_name].
  - rewrite Z.add_0_r in *. rewrite Free. reflexivity.
  - rewrite (Taken counter) by lia. cbn [negb].
    replace (counter + Z.of_nat (S n)) with (counter + 1 + Z.of_nat n) in * by lia.
    apply IH; [| exact Free | lia].
    intros j Hj. apply Taken. lia.
Qed.

Lemma first_free_name_free : forall path_exists base_name timestamp ext fuel counter name,
    first_free_name fuel path_exists base_name timestamp ext counter = Ok name ->
    path_exists name = false.
Proof.
  intros path_exists base_name timestamp ext.
  induction fuel as [| fuel IH]; intros counter name H; cbn [first_free_name] in H.
  - discriminate H.
  - destruct (path_exists (candidate_name base_name timestamp ext counter)) eqn:E;
      cbn [negb] in H.
    + eapply IH. exact H.
    + injection H as <-. exact E.
Qed.

(** X20.  [unique_output_filename] never returns a name that exists: it
    returns the plain name when that is free, and otherwise the name with
    the timestamp and the least counter, from 1 up, whose name is free. *)
Theorem unique_output_filename_free : forall path_exists timestamp base_name ext,
    (path_exists (base_name ++ ext) = false ->
     forall fuel,
       unique_output_filename fuel path_exists timestamp base_name ext
       = Ok (base_name ++ ext))
    /\ (forall k fuel,
           path_exists (base_name ++ ext) = true ->
           1 <= k ->
           (forall j, 1 <= j < k ->
                      path_exists (candidate_name base_name timestamp ext j) = true) ->
           path_exists (candidate_name base_name timestamp ext k) = false ->
           (Z.to_nat k <= fuel)%nat ->
           unique_output_filename fuel path_exists timestamp base_name ext
           = Ok (candidate_name base_name timestamp ext k))
    /\ (forall fuel name,
           unique_output_filename fuel path_exists timestamp base_name ext = Ok name ->
           path_exists name = false).
Proof.
  intros path_exists timestamp base_name ext. unfold unique_output_filename.
  split; [| split].
  - intros E fuel. rewrite E. reflexivity.
  - intros k fuel E Hk Taken Free Hf. rewrite E. cbn [negb].
    replace k with (1 + Z.of_nat (Z.to_nat (k - 1))) in * by lia.
    apply first_free_name_least; [| exact Free | lia].
    intros j Hj. apply Taken. lia.
  - intros fuel name H.
    destruct (path_exists (base_name ++ ext)) eqn:E; cbn [negb] in H.
    + eapply first_free_name_free. exact H.
    + injection H as <-. exact E.
Qed.

Lemma unique_output_filename_free_witness :
  let taken := [s "song_converted.md"; s "song_converted_20240101120000_1.md"] in
  let path_exists := fun name => existsb (fun x => if list_eq_dec ascii_dec x name then true else false) taken in
  unique_output_filename 5 path_exists (s "20240101120000") (s "song_converted") (s ".md")
  = Ok (s "song_converted_20240101120000_2.md").
Proof.
  intros taken path_exists.
  destruct (unique_output_filename_free path_exists (s "20240101120000")
              (s "song_converted") (s ".md")) as (_ & K & _).
  rewrite (K 2 5%nat).
  - vm_compute. reflexivity.
  - vm_compute. reflexivity.
  - lia.
  - intros j Hj. assert (j = 1) as -> by lia. vm_compute. reflexivity.
  - vm_compute. reflexivity.
  - vm_compute. lia.
Defined.

Example splitlines_example :
  splitlines (s "a" ++ [carriage_return; newline] ++ s "b"
                ++ [newline; newline] ++ s "c" ++ [carriage_return])
  = [s "a"; s "b"; []; s "c"].
Proof. vm_compute. reflexivity. Qed.

(** *** Digits need a quality keyword *)

Lemma keyword_head : forall k,
    In (map tolower k) spec_keywords ->
    exists x k', k = x :: k' /\ is_decimal (tolower x) = false.
Proof.
  intros k H. destruct k as [| x k']; cbn [map] in H.
  - unfold spec_keywords in H. cbn in H.
    repeat (destruct H as [H | H]; [discriminate H |]). contradiction.
  - exists x, k'. split; [reflexivity |].
    unfold spec_keywords in H. cbn [map In] in H.
    repeat (destruct H as [H | H];
            [injection H as <- _; reflexivity |]).
    contradiction.
Qed.

(** X21.  A digit cannot follow the root directly: a token whose second
    character is a digit (such as a root with a bare seventh) is not a chord
    token, whatever follows, since the pattern allows digits only after a
    quality keyword. *)
Theorem digit_after_root_rejected : forall token c d rest,
    strip token = c :: d :: rest ->
    is_decimal d = true ->
    is_chord_token token = false.
Proof.
  intros token c d rest E D.
  destruct (is_chord_token token) eqn:C; [| reflexivity]. exfalso.
  apply is_chord_token_Lang, Lang_chord_grammar in C. rewrite E in C.
  destruct C as (c0 & a & q & b & Eq & _ & A & Q & B).
  injection Eq as _ Eq.
  destruct A as [-> | [-> | A]].
  - cbn [app] in Eq. destruct Q as [-> | (k & ds & -> & K & _)].
    + cbn [app] in Eq. destruct B as [-> | (r & a' & -> & _)].
      * discriminate Eq.
      * injection Eq as -> _. discriminate D.
    + apply keyword_head in K. destruct K as (x & k' & -> & Hx).
      cbn [app] in Eq. injection Eq as -> _.
      rewrite is_decimal_tolower in Hx. congruence.
  - cbn [s list_ascii_of_string app] in Eq. injection Eq as -> _. discriminate D.
  - destruct a as [| x a']; [discriminate A |].
    cbn [map] in A. injection A as A _.
    cbn [app] in Eq. injection Eq as -> _.
    rewrite <- is_decimal_tolower, A in D. discriminate D.
Qed.

Lemma digit_after_root_rejected_witness :
  is_chord_token (s "G7") = false /\ is_chord_only_line (s "C  G7") = false.
Proof.
  split.
  - apply (digit_after_root_rejected (s "G7") "G"%char "7"%char []);
      vm_compute; reflexivity.
  - vm_compute. reflexivity.
Defined.
